(** * verify_attention_only.py: listing the operations of an .et file

    A shallow embedding of the script and of the interpreter services it
    calls (regular-expression search, sorting, sets, counters, the file
    system, standard output), followed by the properties proved about it.

    A Python [str] is a sequence of Unicode code points, modelled as
    [list N]; [bytes] is a list of octets, also held in [N].  The file
    system is a record of what the script can ask of it, every question
    being answered by a value or by the exception the library raises, and
    does not change during a run; paths follow POSIX conventions; writing
    to standard output always succeeds.  A run is summarised by what it printed, which
    files it tried to open and its exit status. *)

From Stdlib Require Import NArith List Ascii String Permutation Sorted Lia.
From stdpp Require Import base option list gmap sets strings sorting pretty.

Local Open Scope N_scope.

(** ** Strings *)

Abbreviation str := (list N).
Abbreviation bytes := (list N).

(** [py "abc"] is the Python string with the code points of the literal. *)
Definition py (s : string) : str :=
  map N_of_ascii (list_ascii_of_string s).

Definition dquote : N := 34.
Definition squote : N := 39.
Definition dot : N := 46.
Definition newline : N := 10.

(** Comparison of two strings, code point by code point ([str.__lt__],
    [str.__le__]). *)
Fixpoint str_leb (a b : str) : bool :=
  match a, b with
  | [], _ => true
  | _ :: _, [] => false
  | x :: a', y :: b' => (x <? y) || ((x =? y) && str_leb a' b')
  end.

Definition str_le (a b : str) : Prop := str_leb a b = true.
Definition str_lt (a b : str) : Prop := str_le a b /\ a <> b.

#[global] Instance str_le_dec a b : Decision (str_le a b).
Proof. unfold str_le. apply _. Defined.

(** [sorted(xs)] on strings. *)
Definition sorted (l : list str) : list str := merge_sort str_le l.

(** [s.endswith(suffix)] *)
Definition endswith (s suffix : str) : bool :=
  bool_decide (drop (length s - length suffix)%nat s = suffix).

(** ** Regular expressions: the fragment of [re] used by the script *)

Module Re.

(** Members of a bracketed class. *)
Inductive item :=
| Chr (c : N)
| Rng (lo hi : N).

(** Things that match exactly one character. *)
Inductive atom :=
| Lit (c : N)
| AnyOf (items : list item)
| NoneOf (items : list item)
| Space.

(** Quantifiers are only ever applied to single-character atoms in the
    three patterns, which keeps the matcher structurally recursive. *)
Inductive regex :=
| Eps
| One (a : atom)
| Opt (a : atom)
| Star (a : atom)
| Plus (a : atom)
| Seq (r1 r2 : regex)
| Alt (r1 r2 : regex)
| Group (r : regex).

(** Simple lower-casing as used by IGNORECASE.  Only the characters whose
    image is an ASCII letter matter for the classes and literals of the
    script (the upper-case ASCII letters, U+0130 and the Kelvin sign
    U+212A); every other character is left alone, which does not change any
    membership test below. *)
Definition lower (c : N) : N :=
  if (65 <=? c) && (c <=? 90) then c + 32
  else if c =? 304 then 105
  else if c =? 8490 then 107
  else c.

(** The interpreter's table of lower-case characters sharing an upper case:
    dotless i (U+0131) counts as i, long s (U+017F) as s. *)
Definition fold_case (c : N) : N :=
  let l := lower c in
  if l =? 305 then 105 else if l =? 383 then 115 else l.

(** [\s] on a [str] pattern. *)
Definition is_space (c : N) : bool :=
  ((9 <=? c) && (c <=? 13)) || ((28 <=? c) && (c <=? 32))
  || (c =? 133) || (c =? 160) || (c =? 5760)
  || ((8192 <=? c) && (c <=? 8202)) || (c =? 8232) || (c =? 8233)
  || (c =? 8239) || (c =? 8287) || (c =? 12288).

Definition range (lo hi : N) : list N :=
  map (fun i => lo + N.of_nat i) (seq 0 (N.to_nat (hi + 1 - lo))).

Definition members (i : item) : list N :=
  match i with
  | Chr c => [c]
  | Rng lo hi => range lo hi
  end.

Definition in_items (ic : bool) (items : list item) (c : N) : bool :=
  if ic
  then existsb (fun x => fold_case x =? fold_case c) (flat_map members items)
  else existsb (fun x => x =? c) (flat_map members items).

Definition test (ic : bool) (a : atom) (c : N) : bool :=
  match a with
  | Lit x => if ic then fold_case x =? fold_case c else x =? c
  | AnyOf items => in_items ic items c
  | NoneOf items => negb (in_items ic items c)
  | Space => is_space c
  end.

(** All the ways a greedy [a*] can consume a prefix of [s], longest
    first: the matched text and what is left. *)
Fixpoint star (p : N -> bool) (s : str) : list (str * str) :=
  match s with
  | c :: s' =>
      if p c
      then map (fun '(m, t) => (c :: m, t)) (star p s') ++ [([], s)]
      else [([], s)]
  | [] => [([], [])]
  end.

Definition one (p : N -> bool) (s : str) : list (str * str) :=
  match s with
  | c :: s' => if p c then [([c], s')] else []
  | [] => []
  end.

Definition plus (p : N -> bool) (s : str) : list (str * str) :=
  match s with
  | c :: s' => if p c then map (fun '(m, t) => (c :: m, t)) (star p s') else []
  | [] => []
  end.

(** A way of matching: the text matched, the text of group 1 if the group
    took part, and the rest of the subject. *)
Definition way : Type := str * option str * str.

Definition no_group (x : str * str) : way := (x.1, None, x.2).

Definition later (g1 g2 : option str) : option str :=
  match g2 with Some _ => g2 | None => g1 end.

(** The backtracking matcher: every way [r] matches at the start of [s],
    in the order in which the interpreter tries them. *)
Fixpoint run (ic : bool) (r : regex) (s : str) : list way :=
  match r with
  | Eps => [([], None, s)]
  | One a => map no_group (one (test ic a) s)
  | Opt a => map no_group (one (test ic a) s ++ [([], s)])
  | Star a => map no_group (star (test ic a) s)
  | Plus a => map no_group (plus (test ic a) s)
  | Seq r1 r2 =>
      flat_map (fun '(m1, g1, s1) =>
        map (fun '(m2, g2, s2) => (m1 ++ m2, later g1 g2, s2)) (run ic r2 s1))
        (run ic r1 s)
  | Alt r1 r2 => run ic r1 s ++ run ic r2 s
  | Group r => map (fun '(m, _, t) => (m, Some m, t)) (run ic r s)
  end.

(** The match the interpreter reports at the start of [s]. *)
Definition match_at (ic : bool) (r : regex) (s : str) : option way :=
  head (run ic r s).

Fixpoint has_group (r : regex) : bool :=
  match r with
  | Group _ => true
  | Seq r1 r2 | Alt r1 r2 => has_group r1 || has_group r2
  | _ => false
  end.

(** Whether [r] can match the empty string. *)
Fixpoint nullable (r : regex) : bool :=
  match r with
  | Eps | Opt _ | Star _ => true
  | One _ | Plus _ => false
  | Seq r1 r2 => nullable r1 && nullable r2
  | Alt r1 r2 => nullable r1 || nullable r2
  | Group r => nullable r
  end.

(** What [findall] reports for one match: group 1 when the pattern has a
    group (the empty string if it took no part), else the whole match. *)
Definition reported (r : regex) (w : way) : str :=
  if has_group r then default [] w.1.2 else w.1.1.

(** Left-to-right scan for non-overlapping matches.  [skip] counts the
    characters still covered by the previous match.  After a match the
    search resumes where it ended; this is the interpreter's behaviour for
    patterns that match no empty string, which is the case of the three
    patterns of the script ([patterns_consume]). *)
Fixpoint scan (ic : bool) (r : regex) (skip : nat) (s : str) : list str :=
  match s with
  | [] =>
      match skip, match_at ic r [] with
      | O, Some w => [reported r w]
      | _, _ => []
      end
  | _ :: s' =>
      match skip with
      | S n => scan ic r n s'
      | O =>
          match match_at ic r s with
          | Some w => reported r w :: scan ic r (pred (length w.1.1)) s'
          | None => scan ic r 0 s'
          end
      end
  end.

(** [re.findall(pattern, string, flags)] *)
Definition findall (ic : bool) (r : regex) (s : str) : list str :=
  scan ic r 0 s.

Definition cat (rs : list regex) : regex := foldr Seq Eps rs.
Definition lits (s : string) : list regex := map (fun c => One (Lit c)) (py s).
Definition word (s : string) : regex := cat (lits s).

End Re.

Import Re.

(** ** The three patterns of [extract_operations] *)

Definition quotes : list item := [Chr dquote; Chr squote].
Definition letters : list item := [Rng 97 122; Rng 65 90].
Definition ident_start : list item := letters ++ [Chr 95].
Definition ident_body : list item := letters ++ [Rng 48 57; Chr 95; Chr dot].

(** Pattern 1, searched with IGNORECASE: the letters n a m e, an optional
    quote (double or single), white space, a colon or an equals sign, white
    space, an optional quote, group 1 = one or more characters other than
    the two quotes, an optional quote. *)
Definition pattern1 : regex :=
  cat (lits "name" ++
       [Opt (AnyOf quotes); Star Space; One (AnyOf [Chr 58; Chr 61]); Star Space;
        Opt (AnyOf quotes); Group (Plus (NoneOf quotes)); Opt (AnyOf quotes)]).

(** Pattern 2: one of a-z A-Z _, then any number of a-z A-Z 0-9 _ and dot,
    then a dot, then one or more of a-z A-Z 0-9 _ and dot. *)
Definition pattern2 : regex :=
  cat [One (AnyOf ident_start); Star (AnyOf ident_body); One (Lit dot);
       Plus (AnyOf ident_body)].

(** Pattern 3, searched with IGNORECASE: one of COMP_NODE, COLL_COMM_NODE,
    COMP, COMM (tried in that order), any number of characters outside
    a-z A-Z, group 1 = one of a-z A-Z _ followed by any number of
    a-z A-Z 0-9 _ and dot. *)
Definition pattern3 : regex :=
  cat [Alt (word "COMP_NODE")
         (Alt (word "COLL_COMM_NODE") (Alt (word "COMP") (word "COMM")));
       Star (NoneOf letters);
       Group (Seq (One (AnyOf ident_start)) (Star (AnyOf ident_body)))].

(** The pooled token list [node_names]. *)
Definition node_names (content : str) : list str :=
  findall true pattern1 content
  ++ findall false pattern2 content
  ++ findall true pattern3 content.

(** ** Bytes to text *)

Definition is_cont (b : N) : bool := (128 <=? b) && (b <=? 191).

(** [content.decode('utf-8', errors='ignore')]: well-formed sequences are
    decoded, the bytes of an ill-formed one are dropped and decoding resumes
    at the first byte that was not part of it; a sequence cut short by the
    end of the data is dropped whole. *)
Fixpoint decode_utf8_ignore (bs : bytes) : str :=
  match bs with
  | [] => []
  | b0 :: t0 =>
      if b0 <? 128 then b0 :: decode_utf8_ignore t0
      else if b0 <? 194 then decode_utf8_ignore t0
      else if b0 <? 224 then
        match t0 with
        | [] => []
        | b1 :: t1 =>
            if is_cont b1
            then ((b0 - 192) * 64 + (b1 - 128)) :: decode_utf8_ignore t1
            else decode_utf8_ignore t0
        end
      else if b0 <? 240 then
        match t0 with
        | [] => []
        | b1 :: t1 =>
            if negb (is_cont b1)
               || (if b1 <? 160 then b0 =? 224 else b0 =? 237)
            then decode_utf8_ignore t0
            else
              match t1 with
              | [] => []
              | b2 :: t2 =>
                  if is_cont b2
                  then ((b0 - 224) * 4096 + (b1 - 128) * 64 + (b2 - 128))
                       :: decode_utf8_ignore t2
                  else decode_utf8_ignore t1
              end
        end
      else if b0 <? 245 then
        match t0 with
        | [] => []
        | b1 :: t1 =>
            if negb (is_cont b1)
               || (if b1 <? 144 then b0 =? 240 else b0 =? 244)
            then decode_utf8_ignore t0
            else
              match t1 with
              | [] => []
              | b2 :: t2 =>
                  if negb (is_cont b2) then decode_utf8_ignore t1
                  else
                    match t2 with
                    | [] => []
                    | b3 :: t3 =>
                        if is_cont b3
                        then ((b0 - 240) * 262144 + (b1 - 128) * 4096
                              + (b2 - 128) * 64 + (b3 - 128))
                             :: decode_utf8_ignore t3
                        else decode_utf8_ignore t2
                    end
              end
        end
      else decode_utf8_ignore t0
  end.

Definition hex_digit (n : N) : N := if n <? 10 then 48 + n else 87 + n.

(** [str(content)] for a bytes object: its printable representation. *)
Definition bytes_repr (bs : bytes) : str :=
  let q := if existsb (N.eqb squote) bs && negb (existsb (N.eqb dquote) bs)
           then dquote else squote in
  let esc (c : N) : str :=
    if (c =? q) || (c =? 92) then [92; c]
    else if c =? 9 then [92; 116]
    else if c =? 10 then [92; 110]
    else if c =? 13 then [92; 114]
    else if (c <? 32) || (127 <=? c) then [92; 120; hex_digit (c / 16); hex_digit (c mod 16)]
    else [c] in
  [98; q] ++ flat_map esc bs ++ [q].

(** ** The interpreter's effects *)

(** The outcome of a library call that asks the file system: the value it
    returns, or the text of the exception it raises.  The exceptions these
    calls raise ([OSError], [ValueError]) all derive from [Exception]. *)
Definition answer (A : Type) : Type := str + A.

#[global] Instance answer_ret : MRet answer := fun A (a : A) => inr a.

#[global] Instance answer_bind : MBind answer := fun A B (f : A -> answer B) (m : answer A) =>
  match m with
  | inr a => f a
  | inl e => inl e
  end.

(** What the script can observe of the file system.  [is_file p] and
    [is_dir p] are [Path(p).is_file()] and [Path(p).is_dir()]: pathlib
    answers [False] when the stat fails because the path does not exist
    (ENOENT, ENOTDIR, EBADF, ELOOP) or cannot be encoded, and raises the
    [OSError] of any other failure (a name that is too long, a directory
    that may not be searched).  [iterdir p] is the outcome of scanning the
    directory [p] as [Path(p).glob] does: the entries directly inside it,
    each rendered as the path pathlib gives it, in the order the system
    returns them, or the error raised (pathlib lists nothing for a
    directory that may not be read, and lets other errors through);
    [glob p] is the outcome of [glob.glob(p)]; [read p] is the outcome of
    opening [p] in binary mode and reading it whole: the bytes, or the text
    of the error raised. *)
Record World := {
  is_file : str -> answer bool;
  is_dir : str -> answer bool;
  iterdir : str -> answer (list str);
  glob : str -> answer (list str);
  read : str -> str + bytes
}.

(** Exceptions: [Exception msg] stands for any exception derived from
    [Exception] whose [str()] is [msg]; [SystemExit] is not one of them. *)
Inductive exn :=
| Exception (msg : str)
| SystemExit (code : N).

(** What a run leaves behind: the arguments of the [print] calls, in order,
    and the paths it tried to open. *)
Record Console := { stdout : list str; opened : list str }.

(** The console at the start of a run. *)
Definition fresh : Console := {| stdout := []; opened := [] |}.

(** A computation of the script: from a console to a value or a raised
    exception, and the console afterwards.  Writing to standard output is
    taken to succeed. *)
Definition IO (A : Type) : Type := Console -> (exn + A) * Console.

#[global] Instance IO_ret : MRet IO := fun A (a : A) c => (inr a, c).

#[global] Instance IO_bind : MBind IO := fun A B (f : A -> IO B) (m : IO A) c =>
  match m c with
  | (inr a, c') => f a c'
  | (inl e, c') => (inl e, c')
  end.

Definition raise {A} (e : exn) : IO A := fun c => (inl e, c).

(** A library call inside a computation: its value, or its exception
    raised. *)
Definition raising {A} (r : answer A) : IO A := fun c =>
  match r with
  | inr a => (inr a, c)
  | inl msg => (inl (Exception msg), c)
  end.

Definition print (s : str) : IO unit := fun c =>
  (inr tt, {| stdout := stdout c ++ [s]; opened := opened c |}).

(** [with open(path, 'rb') as f: content = f.read()] *)
Definition open_read (w : World) (path : str) : IO bytes := fun c =>
  let c' := {| stdout := stdout c; opened := opened c ++ [path] |} in
  match read w path with
  | inl msg => (inl (Exception msg), c')
  | inr content => (inr content, c')
  end.

(** [try: body  except Exception as e: handler(e)] *)
Definition try_except_Exception {A} (body : IO A) (handler : str -> IO A) : IO A :=
  fun c =>
    match body c with
    | (inl (Exception msg), c') => handler msg c'
    | r => r
    end.

(** [try: body  except: handler] *)
Definition try_except {A} (body : IO A) (handler : IO A) : IO A :=
  fun c =>
    match body c with
    | (inl _, c') => handler c'
    | r => r
    end.

Fixpoint for_each {A} (l : list A) (body : A -> IO unit) : IO unit :=
  match l with
  | [] => mret tt
  | x :: l' => body x ;; for_each l' body
  end.

(** ** Library functions on strings and collections *)

(** [sep.join(parts)] *)
Fixpoint join (sep : str) (parts : list str) : str :=
  match parts with
  | [] => []
  | [p] => p
  | p :: ps => p ++ sep ++ join sep ps
  end.

(** [s.split(sep)] for a one-character separator. *)
Fixpoint split (sep : N) (s : str) : list str :=
  match s with
  | [] => [[]]
  | c :: s' =>
      if c =? sep then [] :: split sep s'
      else match split sep s' with
           | p :: ps => (c :: p) :: ps
           | [] => [[c]]
           end
  end.

(** [os.path.basename(p)]: what follows the last slash. *)
Fixpoint basename (p : str) : str :=
  match p with
  | [] => []
  | c :: p' => if existsb (N.eqb 47) p' then basename p'
               else if c =? 47 then p' else p
  end.

(** [str(n)] for a non-negative integer. *)
Definition str_of_nat (n : nat) : str := py (pretty n).

(** [Counter(xs)] and [counter[k]]. *)
Definition Counter (l : list str) : gmap str nat :=
  foldl (fun m x => <[x := S (default O (m !! x))]> m) ∅ l.

Definition count_of (m : gmap str nat) (k : str) : nat := default O (m !! k).

(** [set(xs)] *)
Definition set_of (l : list str) : gset str := list_to_set l.

(** ** The script *)

Definition extract_strings_from_binary (w : World) (file_path : str) : IO str :=
  try_except_Exception
    (content ← open_read w file_path;
     content_str ← try_except (mret (decode_utf8_ignore content))
                              (mret (bytes_repr content));
     mret content_str)
    (fun e =>
       print (py "Error reading " ++ file_path ++ py ": " ++ e) ;;
       mret []).

Definition extract_operations (w : World) (et_file : str)
  : IO (list str * gmap str nat) :=
  content ← extract_strings_from_binary w et_file;
  let node_names := node_names content in
  let unique_ops := sorted (elements (set_of node_names)) in
  let op_counts := Counter node_names in
  mret (unique_ops, op_counts).

Definition et : str := py ".et".

(** [Path(path).glob('*.et')] keeps the entries of the directory whose name,
    hence whose path, ends in [.et] (matching is case-sensitive, as on
    POSIX systems).  The entries of one directory differ in their last
    component only, so sorting the [Path] objects orders them as their
    strings are ordered.  The function has no handler: an exception of
    [is_file], [is_dir], the scan or the expansion is its own. *)
Definition find_et_files (w : World) (path : str) : answer (list str) :=
  file ← is_file w path;
  if file && endswith path et then mret [path]
  else
    dir ← is_dir w path;
    if (dir : bool) then
      entries ← iterdir w path;
      let et_files := filter (fun f => endswith f et = true) entries in
      mret (sorted et_files)
    else
      et_files ← glob w path;
      mret (filter (fun f => endswith f et = true) et_files).

(** The grouping key of an operation name. *)
Definition prefix_of (op : str) : str :=
  let parts := split dot op in
  if (2 <=? length parts)%nat then
    if (3 <=? length parts)%nat then join [dot] (take 3 parts)
    else join [dot] (take 2 parts)
  else op.

(** One turn of the grouping loop. *)
Definition group_step (grouped : gmap str (list str)) (op : str)
  : gmap str (list str) :=
  let prefix := prefix_of op in
  let grouped :=
    match grouped !! prefix with
    | None => <[prefix := []]> grouped
    | Some _ => grouped
    end in
  alter (fun ops => ops ++ [op]) prefix grouped.

Definition group_by_prefix (unique_ops : list str) : gmap str (list str) :=
  foldl group_step ∅ unique_ops.

Definition rule : str := replicate 80 61.

Definition doc : str :=
  join [newline]
    [ []; py "Script to list operations in .et files.";
      [];
      py "Usage:";
      py "    python verify_attention_only.py <path_to_et_files>";
      py "    ";
      py "Example:";
      py "    python verify_attention_only.py generated_attn/";
      py "    python verify_attention_only.py generated_attn/moe_attn_8exp_4ep.0.et";
      [] ].

Definition main (w : World) (argv : list str) : IO unit :=
  (if (length argv <? 2)%nat then
     print doc ;;
     print (newline :: py "Error: Please provide path to .et file(s)") ;;
     print (py "Example: python verify_attention_only.py generated_attn/") ;;
     raise (SystemExit 1)
   else mret tt) ;;
  let input_path := nth 1 argv [] in
  et_files ← raising (find_et_files w input_path);
  (if bool_decide (et_files = []) then
     print (py "Error: No .et files found in: " ++ input_path) ;;
     raise (SystemExit 1)
   else mret tt) ;;
  let first_file := nth 0 et_files [] in
  print (py "Analyzing: " ++ first_file ++ [newline]) ;;
  '(unique_ops, op_counts) ← extract_operations w first_file;
  print rule ;;
  print (py "Operations found in " ++ basename first_file) ;;
  print rule ;;
  print ([newline] ++ py "Total unique operations: "
         ++ str_of_nat (length unique_ops) ++ [newline]) ;;
  let grouped := group_by_prefix unique_ops in
  print (py "Operations grouped by prefix:" ++ [newline]) ;;
  for_each (sorted (elements (dom grouped))) (fun prefix =>
    let ops := sorted (default [] (grouped !! prefix)) in
    print (prefix ++ py ":") ;;
    for_each ops (fun op =>
      let count := count_of op_counts op in
      print (py "  - " ++ op ++ py " (appears " ++ str_of_nat count
             ++ py " time(s))")) ;;
    print []) ;;
  print ([newline] ++ rule) ;;
  print (py "All unique operations (sorted):") ;;
  print rule ;;
  for_each unique_ops (fun op =>
    let count := count_of op_counts op in
    print (py "  " ++ op ++ py " (" ++ str_of_nat count ++ py ")")).

(** What the operating system sees of a run of the script: the printed
    lines, the files it tried to open, and the exit status (zero when
    [main] returns, the code given to [sys.exit], one for an exception that
    nobody caught). *)
Record Outcome := { printed : list str; reads : list str; status : N }.

Definition run_main (w : World) (argv : list str) : Outcome :=
  let '(r, c) := main w argv fresh in
  {| printed := stdout c;
     reads := opened c;
     status := match r with
               | inr _ => 0
               | inl (SystemExit code) => code
               | inl (Exception _) => 1
               end |}.

(** ** Closed forms used in the statements *)

Fixpoint take_while (p : N -> bool) (s : str) : str :=
  match s with
  | c :: s' => if p c then c :: take_while p s' else []
  | [] => []
  end.

Fixpoint drop_while (p : N -> bool) (s : str) : str :=
  match s with
  | c :: s' => if p c then drop_while p s' else s
  | [] => []
  end.

Definition is_letter (c : N) : bool :=
  ((97 <=? c) && (c <=? 122)) || ((65 <=? c) && (c <=? 90)).

Definition is_digit (c : N) : bool := (48 <=? c) && (c <=? 57).

Definition is_quote (c : N) : bool := (c =? dquote) || (c =? squote).

(** The letters of a class a-zA-Z searched with IGNORECASE: the ASCII
    letters and the four characters that share a case with one of them
    (U+0130, U+0131, U+017F, U+212A). *)
Definition is_letter_ic (c : N) : bool :=
  is_letter c || (c =? 304) || (c =? 305) || (c =? 383) || (c =? 8490).

(** Identifier characters: letters, digits, underscore. *)
Definition is_ident (c : N) : bool := is_letter c || is_digit c || (c =? 95).

Definition is_start (c : N) : bool := is_letter c || (c =? 95).
Definition is_body (c : N) : bool := is_ident c || (c =? dot).
Definition is_start_ic (c : N) : bool := is_letter_ic c || (c =? 95).
Definition is_body_ic (c : N) : bool :=
  is_letter_ic c || is_digit c || (c =? 95) || (c =? dot).

(** A dot that is followed by at least one more character. *)
Fixpoint inner_dot (l : str) : bool :=
  match l with
  | [] => false
  | c :: l' => ((c =? dot) && negb (bool_decide (l' = []))) || inner_dot l'
  end.

(** Pattern 2 at the start of [s], in closed form: the token and the
    rest. *)
Definition dotted_at (s : str) : option (str * str) :=
  match s with
  | c :: s' =>
      let body := take_while is_body s' in
      if is_start c && inner_dot body
      then Some (c :: body, drop_while is_body s')
      else None
  | [] => None
  end.

(** The strings pattern 2 matches from end to end. *)
Definition dotted_name (t : str) : bool :=
  match t with
  | c :: body => is_start c && forallb is_body body && inner_dot body
  | [] => false
  end.

(** Removal of a prefix that matches [marker] letter by letter, case
    ignored. *)
Fixpoint strip_ic (marker s : str) : option str :=
  match marker, s with
  | [], _ => Some s
  | x :: marker', c :: s' =>
      if fold_case x =? fold_case c then strip_ic marker' s' else None
  | _ :: _, [] => None
  end.

(** The part of [l] after its last underscore, if it has one. *)
Fixpoint after_last_underscore (l : str) : option str :=
  match l with
  | [] => None
  | c :: l' =>
      match after_last_underscore l' with
      | Some t => Some t
      | None => if c =? 95 then Some l' else None
      end
  end.

(** Pattern 3 after the marker, in closed form: skip everything that is
    not a letter; the token starts at the letter found and runs over
    letters, digits, underscores and dots.  When the text ends before any
    letter the matcher backs up to the last underscore it skipped and the
    token starts there. *)
Definition node_after (s : str) : option (str * str) :=
  match drop_while (fun c => negb (is_letter_ic c)) s with
  | c :: t => Some (c :: take_while is_body_ic t, drop_while is_body_ic t)
  | [] =>
      t ← after_last_underscore s;
      Some (95 :: take_while is_body_ic t, drop_while is_body_ic t)
  end.

Definition markers : list str :=
  [py "COMP_NODE"; py "COLL_COMM_NODE"; py "COMP"; py "COMM"].

(** Pattern 3 at the start of [s]: the first marker, in the order of the
    pattern, after which a token is found. *)
Definition marker_at (s : str) : option (str * str) :=
  head (omap (fun m => strip_ic m s ≫= node_after) markers).

Definition strip_quote (s : str) : str :=
  match s with
  | c :: s' => if is_quote c then s' else s
  | [] => []
  end.

(** Pattern 1 after the colon or equals sign, in closed form: skip white
    space and one opening quote; the token is the longest run of characters
    other than quotes, and one closing quote is consumed after it.  When no
    such character follows, the matcher backs up and the token is the last
    white-space character it skipped. *)
Definition value_at (s : str) : option (str * str) :=
  let s5 := drop_while is_space s in
  let s6 := strip_quote s5 in
  match take_while (fun c => negb (is_quote c)) s6 with
  | (_ :: _) as tok =>
      Some (tok, strip_quote (drop_while (fun c => negb (is_quote c)) s6))
  | [] =>
      sp ← last (take_while is_space s);
      Some ([sp], strip_quote s5)
  end.

(** Pattern 1 after the label and its optional quote: white space, then
    a colon or an equals sign that must be there, then the value. *)
Definition delimited_at (s : str) : option (str * str) :=
  match drop_while is_space s with
  | d :: s4 => if (d =? 58) || (d =? 61) then value_at s4 else None
  | [] => None
  end.

(** Pattern 1 at the start of [s]: the label, one optional quote, then the
    delimiter and the value. *)
Definition labeled_at (s : str) : option (str * str) :=
  s1 ← strip_ic (py "name") s;
  delimited_at (strip_quote s1).

(** The way reported for a match that captured [tok] and left [rest]. *)
Definition way_of (s : str) (x : str * str) : way :=
  (take (length s - length x.2) s, Some x.1, x.2).

(** ** The claims about the patterns, in the words of the specification *)

(** A value as the specification describes it: alphanumeric or punctuation
    characters, no quote (printable ASCII without the space and the two
    quotes). *)
Definition is_value_char (c : N) : bool :=
  (33 <=? c) && (c <=? 126) && negb (is_quote c).

(** "matches a name label optionally followed by a quote/colon/equals
    delimiter, optionally followed by a quoted value, capturing the value
    content": the label, perhaps one delimiter, perhaps an opening quote,
    the value, perhaps a closing quote, yields the value. *)
Definition labeled_field_claim (delim open value close : str) : Prop :=
  delim ∈ [[]; [dquote]; [squote]; [58]; [61]] ->
  open ∈ [[]; [dquote]; [squote]] -> close ∈ [[]; [dquote]; [squote]] ->
  value <> [] -> forallb is_value_char value = true ->
  findall true pattern1 (py "name" ++ delim ++ open ++ value ++ close) = [value].

(** "the value content (alphanumeric/punctuation run excluding quote
    characters)": every token of the scan is such a run. *)
Definition labeled_token_claim (text : str) : Prop :=
  forall tok, tok ∈ findall true pattern1 text -> forallb is_value_char tok = true.

(** "matches any run of identifier characters (letters, digits,
    underscore) containing at least one literal dot". *)
Definition dotted_run (t : str) : bool :=
  forallb is_body t && bool_decide (dot ∈ t).

Definition dotted_identifier_claim (t : str) : Prop :=
  dotted_run t = true -> findall false pattern2 t = [t].

(** "matches the literal markers, skips intervening non-identifier
    characters, and captures the following dotted identifier": a marker, a
    gap without identifier characters, then an identifier (a letter or
    underscore followed by letters, digits, underscores and dots) yields
    that identifier. *)
Definition node_marker_claim (marker gap ident : str) : Prop :=
  marker ∈ markers -> forallb (fun c => negb (is_body c)) gap = true ->
  (match ident with c :: body => is_start c && forallb is_body body | [] => false end) = true ->
  findall true pattern3 (marker ++ gap ++ ident) = [ident].

(** "find_et_files returns, for every input path string": a sequence is
    returned, and it is the input alone when the input names an existing
    regular file ending in [.et]; otherwise, when it names an existing
    directory, the entries inside it that end in [.et], sorted; otherwise
    the glob expansion without the paths that do not end in [.et]. *)
Definition resolution_claim (w : World) (path : str) : Prop :=
  exists files, find_et_files w path = inr files /\
    if bool_decide (is_file w path = inr true) && endswith path et
    then files = [path]
    else if bool_decide (is_dir w path = inr true)
    then StronglySorted str_le files /\
         forall entries, iterdir w path = inr entries ->
           files ≡ₚ filter (fun f => endswith f et = true) entries
    else forall expansion, glob w path = inr expansion ->
           files = filter (fun f => endswith f et = true) expansion.

(** ** A small world for the examples *)

Definition sample_text : str :=
  py "xx transformer.0.mha.qkv yy transformer.0.mha.qkv COMP_NODE foo.bar z".

Definition sample_world : World := {|
  is_file := fun p =>
    inr (bool_decide (p ∈ [py "gen/b.et"; py "gen/a.et"; py "gen/n.txt"]));
  is_dir := fun p => inr (bool_decide (p = py "gen"));
  iterdir := fun p =>
    inr (if bool_decide (p = py "gen")
         then [py "gen/b.et"; py "gen/n.txt"; py "gen/a.et"] else []);
  glob := fun p =>
    inr (if bool_decide (p = py "gen/*")
         then [py "gen/n.txt"; py "gen/b.et"; py "gen/a.et"]
         else if bool_decide (p ∈ [py "gen/b.et"; py "gen/a.et"; py "gen/n.txt"; py "gen"])
         then [p] else []);
  read := fun p =>
    if bool_decide (p = py "gen/b.et") then inr sample_text
    else if bool_decide (p = py "gen/n.txt") then inr (py "notes")
    else inl (py "[Errno 13] Permission denied: 'gen/a.et'")
|}.

(** The same files on a system whose names hold 255 characters at most:
    the stat of a path with a longer component fails with ENAMETOOLONG,
    which [is_file] and [is_dir] raise, while [glob.glob] finds nothing
    there and raises nothing. *)
Definition name_too_long (p : str) : bool :=
  existsb (fun part => (255 <? length part)%nat) (split 47 p).

Definition ENAMETOOLONG (p : str) : str :=
  py "[Errno 36] File name too long: '" ++ p ++ py "'".

Definition limited_world : World := {|
  is_file := fun p =>
    if name_too_long p then inl (ENAMETOOLONG p) else is_file sample_world p;
  is_dir := fun p =>
    if name_too_long p then inl (ENAMETOOLONG p) else is_dir sample_world p;
  iterdir := iterdir sample_world;
  glob := glob sample_world;
  read := read sample_world
|}.

(** A name of 303 characters ending in [.et]. *)
Definition long_name : str := replicate 300 97 ++ py ".et".

(** ** Notions used in the statements and in the proofs *)

(** How many times [t] occurs in [l]. *)
Definition occurrences (t : str) (l : list str) : nat :=
  length (filter (fun x => x = t) l).

(** The console after an attempt to open [path]. *)
Definition opening (path : str) (c : Console) : Console :=
  {| stdout := stdout c; opened := opened c ++ [path] |}.

(** The console after a call of [print]. *)
Definition printing (line : str) (c : Console) : Console :=
  {| stdout := stdout c ++ [line]; opened := opened c |}.

(** A computation that returns normally, opens no file and only adds
    lines to what was printed. *)
Definition quiet (m : IO unit) : Prop :=
  forall c, exists c' lines,
    m c = (inr tt, c') /\ opened c' = opened c /\
    stdout c' = stdout c ++ lines.

(** What the scan needs of a way: group 1 and the rest. *)
Definition out (w : way) : option str * str := (w.1.2, w.2).

(** The first way of [r] at the start of [s], without its matched text. *)
Definition match_out (ic : bool) (r : regex) (s : str) : option (option str * str) :=
  head (map out (run ic r s)).

(** The first success of [k] on what a greedy star leaves, trying the
    longest consumption first and giving characters back one at a time. *)
Fixpoint backoff {B} (p : N -> bool) (s : str) (k : str -> option B) : option B :=
  match s with
  | c :: s' =>
      if p c
      then match backoff p s' k with Some r => Some r | None => k s end
      else k s
  | [] => k []
  end.

(** [a] if it is a success, else [b]. *)
Definition or_else {B} (a b : option B) : option B :=
  match a with Some _ => a | None => b end.

(** Group 1 of pattern 3. *)
Definition pattern3_group : regex :=
  Group (Seq (One (AnyOf ident_start)) (Star (AnyOf ident_body))).

(** A computation that returns normally, opens no file and prints exactly
    [lines]. *)
Definition appends (m : IO unit) (lines : list str) : Prop :=
  forall c, m c = (inr tt, {| stdout := stdout c ++ lines; opened := opened c |}).

(** A text that is empty or ends outside the class of pattern 2, and one
    that is empty or starts outside it. *)
Definition ends_clean (pre : str) : Prop :=
  match last pre with Some c => is_body c = false | None => True end.

Definition starts_clean (post : str) : Prop :=
  match post with c :: _ => is_body c = false | [] => True end.

(** The lines that [main] prints after the extraction, as the loops of the
    report produce them. *)
Definition report_lines (first_file : str) (unique_ops : list str)
    (op_counts : gmap str nat) : list str :=
  let grouped := group_by_prefix unique_ops in
  [ rule;
    py "Operations found in " ++ basename first_file;
    rule;
    [newline] ++ py "Total unique operations: "
      ++ str_of_nat (length unique_ops) ++ [newline];
    py "Operations grouped by prefix:" ++ [newline] ]
  ++ flat_map (fun prefix =>
       [prefix ++ py ":"]
       ++ map (fun op => py "  - " ++ op ++ py " (appears "
                         ++ str_of_nat (count_of op_counts op) ++ py " time(s))")
              (sorted (default [] (grouped !! prefix)))
       ++ [[]])
       (sorted (elements (dom grouped)))
  ++ [ [newline] ++ rule; py "All unique operations (sorted):"; rule ]
  ++ map (fun op => py "  " ++ op ++ py " ("
                    ++ str_of_nat (count_of op_counts op) ++ py ")")
         unique_ops.

(** A Unicode scalar value: a code point below 0x110000 that is not a
    surrogate. *)
Definition is_scalar (c : N) : bool :=
  (c <? 55296) || ((57343 <? c) && (c <? 1114112)).

(** Two strings that differ by the case of their letters at most, as
    IGNORECASE sees it. *)
Definition same_ic (a b : str) : Prop := map fold_case a = map fold_case b.

(** A text that is empty or starts outside the class that continues a
    token of pattern 3. *)
Definition starts_clean_ic (post : str) : Prop :=
  match post with c :: _ => is_body_ic c = false | [] => True end.

(** * Properties *)

(** ** The order on strings *)

Lemma str_leb_refl a : str_leb a a = true.
Proof.
  induction a as [|x a IH]; simpl; [done|].
  rewrite N.eqb_refl, IH. apply orb_true_r.
Qed.

Lemma str_leb_total a b : str_leb a b = true \/ str_leb b a = true.
Proof.
  revert b. induction a as [|x a IH]; intros [|y b]; simpl; auto.
  destruct (N.ltb_spec x y); [auto|].
  destruct (N.ltb_spec y x); [auto|].
  assert (x = y) as -> by lia. rewrite N.eqb_refl. simpl. apply IH.
Qed.

Lemma str_leb_trans a b c :
  str_leb a b = true -> str_leb b c = true -> str_leb a c = true.
Proof.
  revert b c. induction a as [|x a IH]; intros [|y b] [|z c]; simpl; try done.
  rewrite !orb_true_iff, !andb_true_iff, !N.ltb_lt, !N.eqb_eq.
  intros [?|[-> ?]] [?|[-> ?]]; [left; lia | by left | by left |].
  right. split; [done|]. by eapply IH.
Qed.

Lemma str_leb_antisym a b :
  str_leb a b = true -> str_leb b a = true -> a = b.
Proof.
  revert b. induction a as [|x a IH]; intros [|y b]; simpl; try done.
  rewrite !orb_true_iff, !andb_true_iff, !N.ltb_lt, !N.eqb_eq.
  intros [?|[-> ?]] [?|[? ?]]; try lia.
  f_equal. by apply IH.
Qed.

#[global] Instance str_le_total : Total str_le.
Proof. intros a b. apply str_leb_total. Qed.

#[global] Instance str_le_trans : Transitive str_le.
Proof. intros a b c. apply str_leb_trans. Qed.

#[global] Instance str_le_refl : Reflexive str_le.
Proof. intros a. apply str_leb_refl. Qed.

#[global] Instance str_le_antisym : AntiSymm (=) str_le.
Proof. intros a b. apply str_leb_antisym. Qed.

Lemma sorted_Sorted l : StronglySorted str_le (sorted l).
Proof. apply StronglySorted_merge_sort; apply _. Qed.

Lemma sorted_Permutation l : sorted l ≡ₚ l.
Proof. apply merge_sort_Permutation. Qed.

Lemma elem_of_sorted x l : x ∈ sorted l <-> x ∈ l.
Proof. by rewrite sorted_Permutation. Qed.

(** Two sorted lists with the same elements, each once, are the same
    list. *)
Lemma sorted_unique l1 l2 :
  StronglySorted str_le l1 -> StronglySorted str_le l2 -> l1 ≡ₚ l2 -> l1 = l2.
Proof. apply StronglySorted_unique. apply _. Qed.

(** A sorted list without repetition increases strictly. *)
Lemma sorted_strict l :
  StronglySorted str_le l -> NoDup l -> StronglySorted str_lt l.
Proof.
  induction 1 as [|x l Hl IH Hx]; intros Hnd; constructor.
  - apply IH. by apply NoDup_cons in Hnd as [_ ?].
  - apply NoDup_cons in Hnd as [Hni _].
    apply Forall_forall. intros y Hy. split.
    + rewrite Forall_forall in Hx. by apply Hx.
    + intros ->. done.
Qed.

(** ** Reading the file *)

Lemma extract_strings_from_binary_eq w file_path c :
  extract_strings_from_binary w file_path c =
  match read w file_path with
  | inr content => (inr (decode_utf8_ignore content), opening file_path c)
  | inl msg =>
      (inr [], printing (py "Error reading " ++ file_path ++ py ": " ++ msg)
                 (opening file_path c))
  end.
Proof.
  unfold extract_strings_from_binary, try_except_Exception, try_except,
    open_read, mbind, IO_bind, mret, IO_ret, print, opening, printing.
  by destruct (read w file_path).
Qed.

(** ** Counting and deduplication *)

Lemma count_of_insert m k t :
  count_of (<[k := S (default O (m !! k))]> m) t =
  (count_of m t + if decide (k = t) then 1 else 0)%nat.
Proof.
  unfold count_of. destruct (decide (k = t)) as [->|Hne].
  - rewrite lookup_insert_eq. simpl. lia.
  - rewrite lookup_insert_ne by done. lia.
Qed.

Lemma count_of_foldl l m t :
  count_of (foldl (fun m x => <[x := S (default O (m !! x))]> m) m l) t =
  (count_of m t + occurrences t l)%nat.
Proof.
  revert m. induction l as [|x l IH]; intros m; simpl.
  - unfold occurrences. simpl. lia.
  - rewrite IH, count_of_insert. unfold occurrences.
    rewrite filter_cons. destruct (decide (x = t)); simpl; lia.
Qed.

Lemma count_of_Counter l t : count_of (Counter l) t = occurrences t l.
Proof.
  unfold Counter. rewrite count_of_foldl. unfold count_of.
  by rewrite lookup_empty.
Qed.

Lemma occurrences_pos t l : t ∈ l -> (1 <= occurrences t l)%nat.
Proof.
  intros Hin. unfold occurrences.
  assert (t ∈ filter (fun x => x = t) l) as Hf by (by apply list_elem_of_filter).
  destruct (filter (fun x => x = t) l); [by apply elem_of_nil in Hf | simpl; lia].
Qed.

Lemma elem_of_unique x l : x ∈ sorted (elements (set_of l)) <-> x ∈ l.
Proof.
  rewrite elem_of_sorted, elem_of_elements. unfold set_of.
  by rewrite elem_of_list_to_set.
Qed.

Lemma NoDup_unique l : NoDup (sorted (elements (set_of l))).
Proof.
  rewrite sorted_Permutation. apply NoDup_elements.
Qed.

Lemma unique_sorted_dedup l :
  sorted (elements (set_of l)) = sorted (remove_dups l).
Proof.
  apply sorted_unique; try apply sorted_Sorted.
  rewrite !sorted_Permutation.
  apply NoDup_Permutation; [apply NoDup_elements | apply NoDup_remove_dups |].
  intros x. unfold set_of.
  by rewrite elem_of_elements, elem_of_list_to_set, elem_of_remove_dups.
Qed.

(** ** C1 *)

(** C1.  Whatever the file system holds and whatever was printed before,
    [extract_operations] returns normally; with [content] the text handed
    back by [extract_strings_from_binary] and [pooled] the concatenation of
    the tokens of the three scans over it, the first component is the
    sorted deduplication of [pooled], strictly increasing and hence free of
    repetitions, with exactly the elements of [pooled]; and every token of
    it has, in the second component, a count of at least one, equal to
    the number of times that string occurs in [pooled]. *)
Theorem extract_operations_unique_counts (w : World) (et_file : str) (c : Console) :
  exists content c' unique_ops op_counts,
    extract_strings_from_binary w et_file c = (inr content, c') /\
    extract_operations w et_file c = (inr (unique_ops, op_counts), c') /\
    let pooled := findall true pattern1 content
                  ++ findall false pattern2 content
                  ++ findall true pattern3 content in
    unique_ops = sorted (remove_dups pooled) /\
    StronglySorted str_lt unique_ops /\
    NoDup unique_ops /\
    (forall t, t ∈ unique_ops <-> t ∈ pooled) /\
    (forall t, t ∈ unique_ops ->
       (1 <= count_of op_counts t)%nat /\
       count_of op_counts t = occurrences t pooled).
Proof.
  pose proof (extract_strings_from_binary_eq w et_file c) as Hread.
  destruct (extract_strings_from_binary w et_file c) as [r c'] eqn:Hr.
  assert (exists content, r = inr content) as [content ->].
  { destruct (read w et_file); inversion Hread; eauto. }
  exists content, c', (sorted (elements (set_of (node_names content)))),
    (Counter (node_names content)).
  split; [done|]. split.
  { unfold extract_operations, mbind, IO_bind. by rewrite Hr. }
  cbv zeta.
  change (findall true pattern1 content ++ findall false pattern2 content
          ++ findall true pattern3 content) with (node_names content).
  split; [apply unique_sorted_dedup|].
  split; [apply sorted_strict; [apply sorted_Sorted | apply NoDup_unique]|].
  split; [apply NoDup_unique|].
  split; [intros t; apply elem_of_unique|].
  intros t Ht. apply (proj1 (elem_of_unique _ _)) in Ht.
  rewrite count_of_Counter. split; [by apply occurrences_pos | done].
Qed.

Lemma extract_operations_unique_counts_witness :
  exists unique_ops op_counts c',
    extract_operations sample_world (py "gen/b.et") fresh
      = (inr (unique_ops, op_counts), c') /\
    py "foo.bar" ∈ unique_ops /\
    count_of op_counts (py "foo.bar") = 2%nat.
Proof.
  destruct (extract_operations_unique_counts sample_world (py "gen/b.et") fresh)
    as (content & c' & u & k & H1 & H2 & _ & _ & _ & Hmem & Hcnt).
  rewrite extract_strings_from_binary_eq in H1.
  vm_compute in H1. injection H1 as <- _.
  assert (py "foo.bar" ∈ u) as Hin.
  { apply Hmem. vm_compute. do 2 right. left. }
  exists u, k, c'. split; [exact H2|]. split; [exact Hin|].
  destruct (Hcnt _ Hin) as [_ ->]. vm_compute. reflexivity.
Defined.

(** ** Grouping by prefix *)

Lemma split_nonempty sep s : split sep s <> [].
Proof.
  destruct s as [|c s]; simpl; [done|].
  destruct (c =? sep); [done|]. by destruct (split sep s).
Qed.

Lemma split_no_sep sep s : sep ∉ s -> split sep s = [s].
Proof.
  induction s as [|c s IH]; intros Hni; simpl; [done|].
  apply not_elem_of_cons in Hni as [Hne Hni].
  destruct (N.eqb_spec c sep); [congruence|]. by rewrite IH.
Qed.

Lemma split_sep sep s : sep ∈ s -> (2 <= length (split sep s))%nat.
Proof.
  induction s as [|c s IH]; intros Hin; [by apply elem_of_nil in Hin|].
  simpl. destruct (N.eqb_spec c sep) as [->|Hne].
  - simpl. pose proof (split_nonempty sep s).
    destruct (split sep s); [done | simpl; lia].
  - apply elem_of_cons in Hin as [?|Hin]; [congruence|].
    specialize (IH Hin). destruct (split sep s); simpl in *; lia.
Qed.

Lemma prefix_of_rule t :
  let parts := split dot t in
  (dot ∉ t -> prefix_of t = t) /\
  (length parts = 2%nat -> prefix_of t = join [dot] (take 2 parts)) /\
  ((3 <= length parts)%nat -> prefix_of t = join [dot] (take 3 parts)) /\
  (dot ∉ t \/ length parts = 2%nat \/ (3 <= length parts)%nat).
Proof.
  intros parts. unfold prefix_of. fold parts.
  split; [|split; [|split]].
  - intros Hni. subst parts. by rewrite split_no_sep.
  - by intros ->.
  - intros H3. destruct (Nat.leb_spec 2 (length parts)); [|lia].
    destruct (Nat.leb_spec 3 (length parts)); [done | lia].
  - destruct (decide (dot ∈ t)) as [Hin|]; [|by left].
    right. apply split_sep in Hin. fold parts in Hin. lia.
Qed.

Lemma group_step_lookup g op k :
  group_step g op !! k =
  if decide (prefix_of op = k) then Some (default [] (g !! k) ++ [op])
  else g !! k.
Proof.
  unfold group_step. destruct (decide (prefix_of op = k)) as [<-|Hne].
  - destruct (g !! prefix_of op) eqn:Hg.
    + rewrite lookup_alter_eq, Hg. done.
    + by rewrite lookup_alter_eq, lookup_insert_eq.
  - rewrite lookup_alter_ne by done.
    destruct (g !! prefix_of op); [done|]. by rewrite lookup_insert_ne.
Qed.

Lemma foldl_group_step_lookup l g k :
  foldl group_step g l !! k =
  let ops := filter (fun t => prefix_of t = k) l in
  match g !! k with
  | Some o => Some (o ++ ops)
  | None => match ops with [] => None | _ => Some ops end
  end.
Proof.
  revert g. induction l as [|op l IH]; intros g; simpl.
  - destruct (g !! k); [by rewrite app_nil_r | done].
  - rewrite IH, group_step_lookup, filter_cons.
    destruct (decide (prefix_of op = k)); [|done].
    destruct (g !! k); simpl; [by rewrite <- app_assoc | done].
Qed.

(** Each group holds, in order, the operations whose key is the group's,
    and only non-empty groups exist. *)
Lemma group_by_prefix_lookup l k :
  group_by_prefix l !! k =
  match filter (fun t => prefix_of t = k) l with
  | [] => None
  | ops => Some ops
  end.
Proof.
  unfold group_by_prefix. rewrite foldl_group_step_lookup, lookup_empty.
  simpl. by destruct (filter _ l).
Qed.

Lemma group_by_prefix_Some l k ops :
  group_by_prefix l !! k = Some ops ->
  ops = filter (fun t => prefix_of t = k) l.
Proof.
  rewrite group_by_prefix_lookup.
  destruct (filter _ l); [done | congruence].
Qed.

Lemma occurrences_NoDup t l : NoDup l -> t ∈ l -> occurrences t l = 1%nat.
Proof.
  unfold occurrences. induction 1 as [|x l Hni Hnd IH]; intros Hin.
  - by apply elem_of_nil in Hin.
  - rewrite filter_cons. destruct (decide (x = t)) as [->|Hne].
    + simpl. f_equal.
      destruct (filter (fun x => x = t) l) as [|y ys] eqn:Hf; [done|].
      assert (y ∈ filter (fun x => x = t) l) as Hy by (rewrite Hf; left).
      apply list_elem_of_filter in Hy as [-> Hy]. done.
    + apply elem_of_cons in Hin as [?|Hin]; [congruence | by apply IH].
Qed.

(** ** C2 *)

(** C2.  For a list of operations without repetition, every operation sits
    in the group of its own key, once, and in no other group; the groups
    hold nothing but operations of the list; the key is the operation
    itself when it has no dot, its first two dot-separated segments joined
    by a dot when it has exactly two, its first three when it has three or
    more, and these cases cover every operation.  The four examples of the
    specification evaluate as stated. *)
Theorem prefix_grouping_total (unique_ops : list str) :
  NoDup unique_ops ->
  let grouped := group_by_prefix unique_ops in
  (forall t, t ∈ unique_ops ->
     exists ops, grouped !! prefix_of t = Some ops /\
                 occurrences t ops = 1%nat /\
                 forall k ops', grouped !! k = Some ops' -> t ∈ ops' ->
                                k = prefix_of t) /\
  (forall k ops t, grouped !! k = Some ops -> t ∈ ops -> t ∈ unique_ops) /\
  (forall t, let parts := split dot t in
     (dot ∉ t -> prefix_of t = t) /\
     (length parts = 2%nat -> prefix_of t = join [dot] (take 2 parts)) /\
     ((3 <= length parts)%nat -> prefix_of t = join [dot] (take 3 parts)) /\
     (dot ∉ t \/ length parts = 2%nat \/ (3 <= length parts)%nat)) /\
  prefix_of (py "a.b") = py "a.b" /\
  prefix_of (py "a.b.c") = py "a.b.c" /\
  prefix_of (py "a.b.c.d") = py "a.b.c" /\
  prefix_of (py "a") = py "a".
Proof.
  intros Hnd grouped. subst grouped.
  split; [|split; [|split; [apply prefix_of_rule | by vm_compute]]].
  - intros t Ht.
    assert (t ∈ filter (fun x => prefix_of x = prefix_of t) unique_ops) as Hf
      by (by apply list_elem_of_filter).
    exists (filter (fun x => prefix_of x = prefix_of t) unique_ops).
    split; [|split].
    + rewrite group_by_prefix_lookup.
      destruct (filter _ unique_ops); [by apply elem_of_nil in Hf | done].
    + apply occurrences_NoDup; [by apply NoDup_filter | done].
    + intros k ops' Hk Hin. apply group_by_prefix_Some in Hk. subst ops'.
      by apply list_elem_of_filter in Hin as [-> _].
  - intros k ops t Hk Hin. apply group_by_prefix_Some in Hk. subst ops.
    by apply list_elem_of_filter in Hin as [_ ?].
Qed.

Lemma prefix_grouping_total_witness :
  exists ops,
    group_by_prefix [py "a"; py "a.b"; py "a.b.c"; py "a.b.c.d"]
      !! py "a.b.c" = Some ops /\
    occurrences (py "a.b.c.d") ops = 1%nat.
Proof.
  assert (NoDup [py "a"; py "a.b"; py "a.b.c"; py "a.b.c.d"]) as Hnd
    by (apply (bool_decide_unpack _); vm_compute; exact I).
  destruct (prefix_grouping_total _ Hnd) as [H _].
  destruct (H (py "a.b.c.d")) as (ops & Hl & Ho & _).
  - do 3 right. left.
  - exists ops. split; [exact Hl | exact Ho].
Defined.

(** ** Finding the files *)

Lemma endswith_spec s suffix :
  endswith s suffix = true <-> exists stem, s = stem ++ suffix.
Proof.
  unfold endswith. rewrite bool_decide_eq_true. split.
  - intros H. exists (take (length s - length suffix) s).
    rewrite <- (take_drop (length s - length suffix) s) at 1. by rewrite H.
  - intros [stem ->]. rewrite length_app.
    replace (length stem + length suffix - length suffix)%nat
      with (length stem) by lia.
    by rewrite drop_app_length.
Qed.

(** What the resolution is once the questions are answered. *)
Lemma find_et_files_answered w path file :
  is_file w path = inr file ->
  find_et_files w path =
  if file && endswith path et then inr [path]
  else match is_dir w path with
       | inl e => inl e
       | inr true =>
           match iterdir w path with
           | inl e => inl e
           | inr entries =>
               inr (sorted (filter (fun f => endswith f et = true) entries))
           end
       | inr false =>
           match glob w path with
           | inl e => inl e
           | inr expansion =>
               inr (filter (fun f => endswith f et = true) expansion)
           end
       end.
Proof.
  intros H. unfold find_et_files. rewrite H. cbn [mbind answer_bind].
  destruct (file && endswith path et); [done|].
  destruct (is_dir w path) as [e|[]]; cbn [mbind answer_bind]; [done| |].
  - by destruct (iterdir w path).
  - by destruct (glob w path).
Qed.

Lemma find_et_files_et w path files f :
  find_et_files w path = inr files -> f ∈ files -> endswith f (py ".et") = true.
Proof.
  fold et. destruct (is_file w path) as [e|file] eqn:Hfile.
  { unfold find_et_files. by rewrite Hfile. }
  rewrite (find_et_files_answered _ _ _ Hfile).
  destruct (file && endswith path et) eqn:Hpath.
  - intros [= <-] ->%list_elem_of_singleton.
    by apply andb_true_iff in Hpath as [_ H].
  - destruct (is_dir w path) as [e|[]]; [done| |].
    + destruct (iterdir w path) as [e|entries]; [done|].
      intros [= <-]. rewrite elem_of_sorted. by intros [H _]%list_elem_of_filter.
    + destruct (glob w path) as [e|expansion]; [done|].
      intros [= <-]. by intros [H _]%list_elem_of_filter.
Qed.

(** C6.  Every path of a returned sequence ends in [.et].  When the stat
    behind [is_file] raises, the call raises that error and returns
    nothing.  When the input is an existing regular file whose name ends in
    [.et], the result is that one path.  Otherwise, when the stat behind
    [is_dir] raises, the call raises; when the input is an existing
    directory, the scan of it either raises, and so does the call, or the
    result is sorted in the order of strings and is a rearrangement of the
    entries directly inside it that end in [.et]; when it is no directory,
    the glob expansion either raises, and so does the call, or the result
    is the expansion with the paths that do not end in [.et] removed, the
    others in the order of the expansion. *)
Theorem find_et_files_cases (w : World) (path : str) :
  (forall files f, find_et_files w path = inr files -> f ∈ files ->
     exists stem, f = stem ++ py ".et") /\
  match is_file w path with
  | inl e => find_et_files w path = inl e
  | inr file =>
      if file && endswith path (py ".et")
      then find_et_files w path = inr [path]
      else match is_dir w path with
           | inl e => find_et_files w path = inl e
           | inr true =>
               match iterdir w path with
               | inl e => find_et_files w path = inl e
               | inr entries =>
                   exists files, find_et_files w path = inr files /\
                     StronglySorted str_le files /\
                     files ≡ₚ filter (fun f => endswith f (py ".et") = true) entries
               end
           | inr false =>
               match glob w path with
               | inl e => find_et_files w path = inl e
               | inr expansion =>
                   find_et_files w path
                   = inr (filter (fun f => endswith f (py ".et") = true) expansion)
               end
           end
  end.
Proof.
  split.
  - intros files f H Hf. apply endswith_spec. by apply (find_et_files_et w path files).
  - fold et. destruct (is_file w path) as [e|file] eqn:Hfile.
    { unfold find_et_files. by rewrite Hfile. }
    rewrite (find_et_files_answered _ _ _ Hfile).
    destruct (file && endswith path et); [done|].
    destruct (is_dir w path) as [e|[]]; [done| |].
    + destruct (iterdir w path) as [e|entries]; [done|].
      eexists. split; [done|].
      split; [apply sorted_Sorted | apply sorted_Permutation].
    + by destruct (glob w path).
Qed.

Lemma find_et_files_cases_witness :
  find_et_files sample_world (py "gen") = inr [py "gen/a.et"; py "gen/b.et"] /\
  exists stem, py "gen/a.et" = stem ++ py ".et".
Proof.
  split; [by vm_compute|].
  apply (proj1 (find_et_files_cases sample_world (py "gen"))
           [py "gen/a.et"; py "gen/b.et"]).
  - by vm_compute.
  - left.
Defined.

(** The claim as worded fails where the stat raises: on a system whose
    names hold 255 characters at most, a longer name is no existing file
    and no existing directory and its glob expansion is empty, so the
    empty sequence is claimed, but the call raises and returns nothing. *)
Lemma resolution_claim_fails :
  ~ resolution_claim limited_world long_name /\
  glob limited_world long_name = inr [] /\
  find_et_files limited_world long_name = inl (ENAMETOOLONG long_name).
Proof.
  split; [|split; by vm_compute].
  intros (files & H & _).
  assert (find_et_files limited_world long_name = inl (ENAMETOOLONG long_name)) as E
    by by vm_compute.
  rewrite E in H. discriminate H.
Qed.

(** ** C7 *)

(** C7.  For every file system, path and console, the call returns a
    string and raises nothing; it has tried to open the path and nothing
    else.  When the file was read, whatever its bytes, the string is their
    lossy decoding and nothing is printed; when opening or reading raised,
    the string is empty and one line naming the path and the text of the
    error has been printed.  Empty content decodes to the empty string and
    ill-formed bytes are dropped. *)
Theorem extract_strings_never_raises (w : World) (file_path : str) (c : Console) :
  (exists s c',
     extract_strings_from_binary w file_path c = (inr s, c') /\
     opened c' = opened c ++ [file_path] /\
     match read w file_path with
     | inr content => s = decode_utf8_ignore content /\ stdout c' = stdout c
     | inl msg =>
         s = [] /\
         stdout c' = stdout c ++ [py "Error reading " ++ file_path ++ py ": " ++ msg]
     end) /\
  decode_utf8_ignore [] = [] /\
  decode_utf8_ignore [255; 102; 192; 111; 226; 130; 111] = py "foo".
Proof.
  split; [|by vm_compute].
  rewrite extract_strings_from_binary_eq.
  destruct (read w file_path) as [msg|content]; eauto 10.
Qed.

(** ** Printing does not touch files *)

Lemma quiet_print s : quiet (print s).
Proof. intros c. by eexists _, [s]. Qed.

Lemma quiet_ret : quiet (mret tt).
Proof. intros c. exists c, []. by rewrite app_nil_r. Qed.

Lemma quiet_bind (m : IO unit) (k : unit -> IO unit) :
  quiet m -> (forall u, quiet (k u)) -> quiet (m ≫= k).
Proof.
  intros Hm Hk c. destruct (Hm c) as (c1 & l1 & E1 & O1 & S1).
  destruct (Hk tt c1) as (c2 & l2 & E2 & O2 & S2).
  exists c2, (l1 ++ l2). unfold mbind, IO_bind. rewrite E1, E2.
  split; [done|]. split; [congruence|]. by rewrite S2, S1, app_assoc.
Qed.

Lemma quiet_for_each {A} (l : list A) (body : A -> IO unit) :
  (forall x, quiet (body x)) -> quiet (for_each l body).
Proof.
  intros Hb. induction l as [|x l IH]; simpl.
  - apply quiet_ret.
  - apply quiet_bind; [apply Hb | intros _; apply IH].
Qed.

(** ** The run as a whole *)

Lemma extract_operations_eq w et_file c :
  extract_operations w et_file c =
  let result content :=
    (sorted (elements (set_of (node_names content))),
     Counter (node_names content)) in
  match read w et_file with
  | inr content =>
      (inr (result (decode_utf8_ignore content)), opening et_file c)
  | inl msg =>
      (inr (result []),
       printing (py "Error reading " ++ et_file ++ py ": " ++ msg)
         (opening et_file c))
  end.
Proof.
  unfold extract_operations, mbind, IO_bind.
  rewrite extract_strings_from_binary_eq.
  by destruct (read w et_file).
Qed.

(** Once a first file is selected, [main] announces it, extracts its
    operations and hands them to a report that only prints; the report is
    the same whatever the file system and the other candidates are. *)
Lemma main_selected (first : str) :
  exists report : list str -> gmap str nat -> IO unit,
    (forall u k, quiet (report u k)) /\
    forall w prog path extra others c,
      find_et_files w path = inr (first :: others) ->
      main w (prog :: path :: extra) c =
      (print (py "Analyzing: " ++ first ++ [newline]) ;;
       '(u, k) ← extract_operations w first;
       report u k) c.
Proof.
  eexists. split.
  2: { intros w prog path extra others c H. unfold main.
       cbn [length Nat.ltb Nat.leb nth]. rewrite H.
       unfold mbind at 1 2. unfold IO_bind at 1 2. cbn [mret IO_ret raising].
       rewrite bool_decide_eq_false_2 by done. cbn [nth].
       reflexivity. }
  intros u k. cbv beta.
  repeat first
    [ apply quiet_print
    | apply quiet_for_each; intros ?
    | apply quiet_bind; [|intros ?] ].
Qed.

(** ** C8 *)

(** C8.  When the path given on the command line resolves to no file, the
    run prints the one error line naming that path, opens no file and
    ends with status one. *)
Theorem no_files_is_fatal (w : World) (prog path : str) (extra : list str) :
  find_et_files w path = inr [] ->
  run_main w (prog :: path :: extra) =
  {| printed := [py "Error: No .et files found in: " ++ path];
     reads := [];
     status := 1 |}.
Proof.
  intros H. unfold run_main, main. cbn [length Nat.ltb Nat.leb nth]. rewrite H.
  reflexivity.
Qed.

Lemma no_files_is_fatal_witness :
  run_main sample_world [py "verify_attention_only.py"; py "nowhere"] =
  {| printed := [py "Error: No .et files found in: nowhere"];
     reads := [];
     status := 1 |}.
Proof.
  apply (no_files_is_fatal sample_world _ (py "nowhere") []).
  vm_compute. reflexivity.
Defined.

(** ** C9 *)

(** C9.  When the path resolves to a non-empty sequence of files, the run
    ends with status zero having opened the first file of the sequence and
    no other, and what it prints starts with the announcement of that
    file; and a run in any other file system, with any other arguments,
    whose sequence has the same first file with the same reading outcome
    prints, opens and returns exactly the same, whatever the remaining
    files are. *)
Theorem only_first_file_analyzed
    (w : World) (prog path : str) (extra : list str) (first : str) (others : list str) :
  find_et_files w path = inr (first :: others) ->
  reads (run_main w (prog :: path :: extra)) = [first] /\
  status (run_main w (prog :: path :: extra)) = 0 /\
  (exists lines, printed (run_main w (prog :: path :: extra))
                 = (py "Analyzing: " ++ first ++ [newline]) :: lines) /\
  forall w' prog' path' extra' others',
    find_et_files w' path' = inr (first :: others') ->
    read w' first = read w first ->
    run_main w' (prog' :: path' :: extra') = run_main w (prog :: path :: extra).
Proof.
  intros H. destruct (main_selected first) as (report & Hq & Hmain).
  assert (forall w prog path extra others,
    find_et_files w path = inr (first :: others) ->
    run_main w (prog :: path :: extra) =
    let '(r, c) :=
      (let '(x, c1) := extract_operations w first
                         (printing (py "Analyzing: " ++ first ++ [newline]) fresh) in
       match x with
       | inr (u, k) => report u k c1
       | inl e => (inl e, c1)
       end) in
    {| printed := stdout c; reads := opened c;
       status := match r with
                 | inr _ => 0
                 | inl (SystemExit code) => code
                 | inl (Exception _) => 1
                 end |}) as Hrun.
  { intros w0 prog0 path0 extra0 others0 H0. unfold run_main.
    rewrite (Hmain _ _ _ _ _ _ H0). unfold mbind, IO_bind, print, printing, fresh.
    cbn [stdout opened]. by destruct (extract_operations w0 first _) as [[e|[u k]] c1]. }
  split; [|split; [|split]].
  - rewrite (Hrun _ _ _ _ _ H), extract_operations_eq.
    destruct (read w first) as [msg|content]; cbv beta iota zeta;
      match goal with |- context [report ?u ?k ?c] =>
        destruct (Hq u k c) as (c' & lines & -> & -> & _) end; reflexivity.
  - rewrite (Hrun _ _ _ _ _ H), extract_operations_eq.
    destruct (read w first) as [msg|content]; cbv beta iota zeta;
      match goal with |- context [report ?u ?k ?c] =>
        destruct (Hq u k c) as (c' & lines & -> & _ & _) end; reflexivity.
  - rewrite (Hrun _ _ _ _ _ H), extract_operations_eq.
    destruct (read w first) as [msg|content]; cbv beta iota zeta;
      match goal with |- context [report ?u ?k ?c] =>
        destruct (Hq u k c) as (c' & lines & -> & _ & Hs) end;
      cbn [printed]; rewrite Hs; cbn; eauto.
  - intros w' prog' path' extra' others' H' Hread.
    rewrite (Hrun _ _ _ _ _ H), (Hrun _ _ _ _ _ H'), !extract_operations_eq.
    by rewrite Hread.
Qed.

Lemma only_first_file_analyzed_witness :
  reads (run_main sample_world [py "verify_attention_only.py"; py "gen"])
    = [py "gen/a.et"] /\
  status (run_main sample_world [py "verify_attention_only.py"; py "gen"]) = 0.
Proof.
  destruct (only_first_file_analyzed sample_world (py "verify_attention_only.py")
              (py "gen") [] (py "gen/a.et") [py "gen/b.et"])
    as (Hr & Hs & _ & _).
  - vm_compute. reflexivity.
  - split; [exact Hr | exact Hs].
Defined.

(** ** C10 *)

(** C10.  When the first file of the sequence cannot be opened or read,
    extraction prints the error line and returns the empty list of
    operations with the empty counter, and the run prints, in this order,
    the announcement, the error line, the header with the base name of the
    file, the total of zero, the heading of the grouped section, the
    heading of the section of all operations, and ends with status zero
    having opened that file only. *)
Theorem unreadable_file_reports_nothing
    (w : World) (prog path : str) (extra : list str)
    (first : str) (others : list str) (msg : str) :
  find_et_files w path = inr (first :: others) ->
  read w first = inl msg ->
  (forall c, extract_operations w first c =
     (inr ([], ∅),
      printing (py "Error reading " ++ first ++ py ": " ++ msg) (opening first c))) /\
  run_main w (prog :: path :: extra) =
  {| printed :=
       [ py "Analyzing: " ++ first ++ [newline];
         py "Error reading " ++ first ++ py ": " ++ msg;
         rule;
         py "Operations found in " ++ basename first;
         rule;
         [newline] ++ py "Total unique operations: 0" ++ [newline];
         py "Operations grouped by prefix:" ++ [newline];
         [newline] ++ rule;
         py "All unique operations (sorted):";
         rule ];
     reads := [first];
     status := 0 |}.
Proof.
  intros H Hread. split.
  - intros c. rewrite extract_operations_eq, Hread. reflexivity.
  - unfold run_main, main. cbn [length Nat.ltb Nat.leb nth]. rewrite H.
    unfold mbind at 1 2. unfold IO_bind at 1 2. cbn [mret IO_ret raising].
    rewrite bool_decide_eq_false_2 by done. cbn [nth].
    unfold mbind at 1 2 3 4. unfold IO_bind at 1 2 3 4.
    cbn [mret IO_ret print stdout opened app].
    rewrite extract_operations_eq, Hread.
    vm_compute. reflexivity.
Qed.

Lemma unreadable_file_reports_nothing_witness :
  printed (run_main sample_world [py "verify_attention_only.py"; py "gen"]) =
  [ py "Analyzing: gen/a.et" ++ [newline];
    py "Error reading gen/a.et: [Errno 13] Permission denied: 'gen/a.et'";
    rule;
    py "Operations found in a.et";
    rule;
    [newline] ++ py "Total unique operations: 0" ++ [newline];
    py "Operations grouped by prefix:" ++ [newline];
    [newline] ++ rule;
    py "All unique operations (sorted):";
    rule ].
Proof.
  destruct (unreadable_file_reports_nothing sample_world
              (py "verify_attention_only.py") (py "gen") []
              (py "gen/a.et") [py "gen/b.et"]
              (py "[Errno 13] Permission denied: 'gen/a.et'"))
    as [_ Hrun].
  - vm_compute. reflexivity.
  - vm_compute. reflexivity.
  - rewrite Hrun. vm_compute. reflexivity.
Defined.

(** ** The matcher *)

(** Every way consumes a prefix of the subject. *)
Lemma run_split ic r s w : In w (run ic r s) -> w.1.1 ++ w.2 = s.
Proof.
  assert (Hstar : forall p s x, In x (star p s) -> x.1 ++ x.2 = s).
  { intros p. induction s0 as [|c s0 IH]; simpl.
    - intros x [<-|[]]. done.
    - intros x. destruct (p c).
      + rewrite in_app_iff, in_map_iff. intros [([m t] & <- & Hin)|[<-|[]]].
        * simpl. f_equal. apply (IH _ Hin).
        * done.
      + intros [<-|[]]. done. }
  assert (Hone : forall p s x, In x (one p s) -> x.1 ++ x.2 = s).
  { intros p [|c s0] x; simpl; [done|]. destruct (p c); [|done].
    intros [<-|[]]. done. }
  assert (Hplus : forall p s x, In x (plus p s) -> x.1 ++ x.2 = s).
  { intros p [|c s0] x; simpl; [done|]. destruct (p c); [|done].
    rewrite in_map_iff. intros ([m t] & <- & Hin). simpl. f_equal.
    apply (Hstar _ _ _ Hin). }
  revert s w. induction r; intros s w; simpl.
  - intros [<-|[]]. done.
  - rewrite in_map_iff. intros (x & <- & Hin). by apply Hone in Hin.
  - rewrite in_map_iff. intros (x & <- & Hin).
    apply in_app_iff in Hin as [Hin|[<-|[]]]; [by apply Hone in Hin | done].
  - rewrite in_map_iff. intros (x & <- & Hin). by apply Hstar in Hin.
  - rewrite in_map_iff. intros (x & <- & Hin). by apply Hplus in Hin.
  - rewrite in_flat_map. intros ([[m1 g1] s1] & H1 & H2).
    apply in_map_iff in H2 as ([[m2 g2] s2] & <- & H2).
    apply IHr1 in H1. apply IHr2 in H2. simpl in *. subst.
    by rewrite app_assoc.
  - rewrite in_app_iff. intros [H|H]; [by apply IHr1 | by apply IHr2].
  - rewrite in_map_iff. intros ([[m g] t] & <- & Hin).
    by apply IHr in Hin.
Qed.

(** The matched text is determined by what is left. *)
Lemma match_at_of_out ic r s :
  match_at ic r s =
  (fun o => (take (length s - length o.2) s, o.1, o.2)) <$> match_out ic r s.
Proof.
  unfold match_at, match_out.
  pose proof (run_split ic r s) as Hsplit.
  destruct (run ic r s) as [|[[m g] t] l]; [done|]. simpl.
  specialize (Hsplit (m, g, t) (or_introl eq_refl)). simpl in Hsplit.
  subst s. rewrite length_app.
  replace (length m + length t - length t)%nat with (length m) by lia.
  by rewrite take_app_length.
Qed.

Lemma head_In {A} (l : list A) x : head l = Some x -> In x l.
Proof. destruct l; [done|]. intros [= ->]. by left. Qed.

(** A pattern that is not nullable consumes at least one character. *)
Lemma run_consumes ic r s w :
  nullable r = false -> In w (run ic r s) -> w.1.1 <> [].
Proof.
  revert s w. induction r; intros s w Hn; cbn [run]; try discriminate Hn.
  - rewrite in_map_iff. intros ([m t] & <- & Hin).
    destruct s as [|c s]; [done|]. cbn [one] in Hin.
    destruct (test ic a c); [|done]. by destruct Hin as [[= <- <-]|[]].
  - rewrite in_map_iff. intros ([m t] & <- & Hin).
    destruct s as [|c s]; [done|]. cbn [plus] in Hin.
    destruct (test ic a c); [|done].
    apply in_map_iff in Hin as ([m' t'] & [= <- <-] & _). done.
  - rewrite in_flat_map. intros ([[m1 g1] s1] & H1 & H2).
    apply in_map_iff in H2 as ([[m2 g2] s2] & <- & H2). cbn [fst].
    cbn [nullable] in Hn. apply andb_false_iff in Hn as [Hn|Hn].
    + specialize (IHr1 _ _ Hn H1). cbn [fst] in IHr1. by destruct m1.
    + specialize (IHr2 _ _ Hn H2). cbn [fst] in IHr2.
      destruct m1; [done | discriminate].
  - cbn [nullable] in Hn. apply orb_false_iff in Hn as [Hn1 Hn2].
    rewrite in_app_iff. intros [H|H]; [by eapply IHr1 | by eapply IHr2].
  - rewrite in_map_iff. intros ([[m g] t] & <- & Hin).
    by apply (IHr _ _ Hn) in Hin.
Qed.

Lemma patterns_consume ic s w :
  (match_at ic pattern1 s = Some w \/ match_at ic pattern2 s = Some w \/
   match_at ic pattern3 s = Some w) -> w.1.1 <> [].
Proof.
  intros [H|[H|H]]; apply head_In in H; by apply run_consumes in H.
Qed.

Lemma head_app_or_else {A} (l1 l2 : list A) :
  head (l1 ++ l2) = or_else (head l1) (head l2).
Proof. destruct l1; reflexivity. Qed.

Lemma head_map {A B} (f : A -> B) (l : list A) : head (map f l) = f <$> head l.
Proof. by destruct l. Qed.

Lemma outs_seq ic r1 r2 s :
  map out (run ic (Seq r1 r2) s) =
  flat_map (fun w1 => map (fun o2 => (later w1.1.2 o2.1, o2.2))
                          (map out (run ic r2 w1.2)))
           (run ic r1 s).
Proof.
  cbn [run]. induction (run ic r1 s) as [|[[m1 g1] s1] l IH]; [done|].
  cbn [flat_map]. rewrite map_app. f_equal; [|exact IH].
  rewrite !map_map. apply map_ext. by intros [[m2 g2] s2].
Qed.

Lemma later_None g : later None g = g.
Proof. by destruct g. Qed.

Lemma match_out_eps ic s : match_out ic Eps s = Some (None, s).
Proof. done. Qed.

Lemma map_later_None (l : list (option str * str)) :
  map (fun o2 : option str * str => (later None o2.1, o2.2)) l = l.
Proof.
  induction l as [|[g u] l IH]; simpl; [done|]. by rewrite later_None, IH.
Qed.

Lemma flat_map_no_group ic r (l : list (str * str)) :
  flat_map (fun w1 : way =>
              map (fun o2 : option str * str => (later w1.1.2 o2.1, o2.2))
                  (map out (run ic r w1.2)))
           (map no_group l)
  = flat_map (fun x => map out (run ic r x.2)) l.
Proof.
  induction l as [|x l IH]; [done|].
  cbn [map flat_map]. rewrite IH. f_equal. apply map_later_None.
Qed.

(** A single character in front. *)
Lemma match_out_one ic a r s :
  match_out ic (Seq (One a) r) s =
  match s with
  | c :: s' => if test ic a c then match_out ic r s' else None
  | [] => None
  end.
Proof.
  unfold match_out. rewrite outs_seq. cbn [run]. rewrite flat_map_no_group.
  destruct s as [|c s]; [done|]. cbn [one]. destruct (test ic a c); [|done].
  cbn [flat_map snd]. by rewrite app_nil_r.
Qed.

(** An optional character in front: taken when what follows then matches,
    left alone otherwise. *)
Lemma match_out_opt ic a r s :
  match_out ic (Seq (Opt a) r) s =
  or_else
    match s with
    | c :: s' => if test ic a c then match_out ic r s' else None
    | [] => None
    end
    (match_out ic r s).
Proof.
  unfold match_out. rewrite outs_seq. cbn [run]. rewrite flat_map_no_group.
  destruct s as [|c s]; cbn [one].
  - cbn. by rewrite app_nil_r.
  - destruct (test ic a c); cbn [app flat_map snd].
    + rewrite app_nil_r. by destruct (map out (run ic r s)).
    + by rewrite app_nil_r.
Qed.

(** A greedy star in front. *)
Lemma match_out_star ic a r s :
  match_out ic (Seq (Star a) r) s = backoff (test ic a) s (match_out ic r).
Proof.
  unfold match_out. rewrite outs_seq. cbn [run]. rewrite flat_map_no_group.
  induction s as [|c s IH]; cbn [star backoff].
  - cbn. by rewrite app_nil_r.
  - destruct (test ic a c).
    + rewrite flat_map_app. cbn [flat_map snd]. rewrite app_nil_r.
      rewrite <- IH.
      assert (flat_map (fun x : str * str => map out (run ic r x.2))
                (map (fun '(m, t) => (c :: m, t)) (star (test ic a) s))
              = flat_map (fun x : str * str => map out (run ic r x.2))
                (star (test ic a) s)) as ->.
      { clear IH. induction (star (test ic a) s) as [|[m t] l IHl]; [done|].
        cbn [map flat_map snd]. by rewrite IHl. }
      by destruct (flat_map _ (star (test ic a) s)).
    + cbn [flat_map snd]. by rewrite app_nil_r.
Qed.

(** An alternation in front: the first branch after which the rest
    matches. *)
Lemma match_out_alt ic r1 r2 r s :
  match_out ic (Seq (Alt r1 r2) r) s =
  or_else (match_out ic (Seq r1 r) s) (match_out ic (Seq r2 r) s).
Proof.
  unfold match_out. rewrite !outs_seq. cbn [run]. rewrite flat_map_app.
  apply head_app_or_else.
Qed.

(** Sequencing is associative and [Eps] is neutral, as far as the first
    way is concerned. *)
Lemma match_out_assoc ic r1 r2 r3 s :
  match_out ic (Seq (Seq r1 r2) r3) s = match_out ic (Seq r1 (Seq r2 r3)) s.
Proof.
  unfold match_out. f_equal. cbn [run].
  induction (run ic r1 s) as [|[[m1 g1] s1] l IH]; [done|].
  cbn [flat_map]. rewrite flat_map_app, !map_app. f_equal; [|exact IH].
  clear IH.
  induction (run ic r2 s1) as [|[[m2 g2] s2] l2 IH2]; [done|].
  cbn [flat_map map]. rewrite !map_app. f_equal; [|exact IH2].
  rewrite !map_map. apply map_ext. intros [[m3 g3] s3]. unfold out. simpl.
  by destruct g3, g2.
Qed.

Lemma match_out_eps_l ic r s : match_out ic (Seq Eps r) s = match_out ic r s.
Proof.
  unfold match_out. cbn [run flat_map]. rewrite app_nil_r, map_map.
  f_equal. apply map_ext. intros [[m g] t]. unfold out. simpl.
  by rewrite later_None.
Qed.

(** A literal word in front, case ignored. *)
Lemma match_out_word m r s :
  match_out true (Seq (cat (map (fun c => One (Lit c)) m)) r) s =
  strip_ic m s ≫= match_out true r.
Proof.
  revert s. induction m as [|x m IH]; intros s; simpl.
  - apply match_out_eps_l.
  - rewrite match_out_assoc, match_out_one.
    destruct s as [|c s]; [done|]. simpl.
    destruct (fold_case x =? fold_case c); [apply IH | done].
Qed.

(** ** The character classes in closed form *)

Lemma In_range lo hi x : In x (range lo hi) <-> lo <= x <= hi.
Proof.
  unfold range. rewrite in_map_iff. split.
  - intros (i & <- & Hi). apply in_seq in Hi. lia.
  - intros H. exists (N.to_nat (x - lo)). split; [lia|]. apply in_seq. lia.
Qed.

Lemma fold_case_cases c :
  (65 <= c <= 90 /\ fold_case c = c + 32) \/
  (c = 304 /\ fold_case c = 105) \/
  (c = 305 /\ fold_case c = 105) \/
  (c = 383 /\ fold_case c = 115) \/
  (c = 8490 /\ fold_case c = 107) \/
  (~ (65 <= c <= 90) /\ c <> 304 /\ c <> 305 /\ c <> 383 /\ c <> 8490 /\
   fold_case c = c).
Proof.
  unfold fold_case, lower.
  destruct (N.leb_spec 65 c), (N.leb_spec c 90); cbn [andb];
    try (destruct (N.eqb_spec c 304); [subst; cbn; lia|]);
    try (destruct (N.eqb_spec c 8490); [subst; cbn; lia|]);
    cbv zeta;
    try (destruct (N.eqb_spec c 305); [subst; cbn; lia|]);
    try (destruct (N.eqb_spec c 383); [subst; cbn; lia|]);
    try (destruct (N.eqb_spec (c + 32) 305); [lia|]);
    try (destruct (N.eqb_spec (c + 32) 383); [lia|]);
    lia.
Qed.

Ltac to_prop :=
  rewrite ?negb_true_iff;
  rewrite ?orb_true_iff, ?orb_false_iff, ?andb_true_iff, ?andb_false_iff,
    ?N.leb_le, ?N.leb_gt, ?N.eqb_eq, ?N.eqb_neq.

Lemma in_items_plain items c :
  in_items false items c = true <-> In c (flat_map members items).
Proof.
  unfold in_items. rewrite existsb_exists. split.
  - intros (x & Hin & ->%N.eqb_eq). done.
  - intros Hin. exists c. by rewrite N.eqb_refl.
Qed.

Lemma in_items_folded items c :
  in_items true items c = true <->
  exists x, In x (flat_map members items) /\ fold_case x = fold_case c.
Proof.
  unfold in_items. rewrite existsb_exists.
  split; intros (x & Hin & H); exists x; split; try done; by apply N.eqb_eq.
Qed.

Lemma test_start c : test false (AnyOf ident_start) c = is_start c.
Proof.
  apply Bool.eq_iff_eq_true. cbn [test]. rewrite in_items_plain.
  cbn [flat_map ident_start letters members app].
  rewrite !in_app_iff, !In_range. unfold is_start, is_letter. to_prop.
  cbn [In]. lia.
Qed.

Lemma test_body c : test false (AnyOf ident_body) c = is_body c.
Proof.
  apply Bool.eq_iff_eq_true. cbn [test]. rewrite in_items_plain.
  cbn [flat_map ident_body letters members app].
  rewrite !in_app_iff, !In_range. unfold is_body, is_ident, is_letter, is_digit, dot.
  to_prop. cbn [In]. lia.
Qed.

Lemma test_dot c : test false (Lit dot) c = (c =? dot).
Proof. apply N.eqb_sym. Qed.

Lemma letters_folded c :
  (exists x, (97 <= x <= 122 \/ 65 <= x <= 90) /\ fold_case x = fold_case c)
  <-> is_letter_ic c = true.
Proof.
  unfold is_letter_ic, is_letter. to_prop. split.
  - intros (x & Hx & Heq).
    destruct (fold_case_cases x) as [H|[H|[H|[H|[H|H]]]]],
             (fold_case_cases c) as [G|[G|[G|[G|[G|G]]]]]; lia.
  - intros H. exists (fold_case c).
    destruct (fold_case_cases c) as [G|[G|[G|[G|[G|G]]]]],
             (fold_case_cases (fold_case c)) as [F|[F|[F|[F|[F|F]]]]]; lia.
Qed.

Lemma unfolded_char k c :
  ~ (65 <= k <= 90) -> ~ (97 <= k <= 122) -> k <> 304 -> k <> 305 ->
  k <> 383 -> k <> 8490 ->
  (exists x, x = k /\ fold_case x = fold_case c) <-> c = k.
Proof.
  intros. split.
  - intros (x & -> & Heq).
    destruct (fold_case_cases k) as [H'|[H'|[H'|[H'|[H'|H']]]]],
             (fold_case_cases c) as [G|[G|[G|[G|[G|G]]]]]; lia.
  - intros ->. by exists k.
Qed.

Lemma test_letters_ic c : in_items true letters c = is_letter_ic c.
Proof.
  apply Bool.eq_iff_eq_true. rewrite in_items_folded, <- letters_folded.
  cbn [flat_map letters members app]. rewrite app_nil_r.
  split; intros (x & Hx & Heq); exists x; split; try done;
    revert Hx; rewrite in_app_iff, !In_range; tauto.
Qed.

Lemma test_nonletter_ic c : test true (NoneOf letters) c = negb (is_letter_ic c).
Proof. cbn [test]. by rewrite test_letters_ic. Qed.

Lemma in_items_app ic items1 items2 c :
  in_items ic (items1 ++ items2) c = in_items ic items1 c || in_items ic items2 c.
Proof.
  unfold in_items. rewrite flat_map_app. destruct ic; apply existsb_app.
Qed.

Lemma in_items_chr k c :
  ~ (65 <= k <= 90) -> ~ (97 <= k <= 122) -> k <> 304 -> k <> 305 ->
  k <> 383 -> k <> 8490 ->
  in_items true [Chr k] c = (c =? k).
Proof.
  intros. apply Bool.eq_iff_eq_true. rewrite in_items_folded, N.eqb_eq.
  rewrite <- (unfolded_char k c) by done. cbn [flat_map members app In].
  split; intros (x & Hx & Heq); exists x; (split; [|done]).
  - by destruct Hx as [->|[]].
  - by left.
Qed.

Lemma in_items_digits c : in_items true [Rng 48 57] c = is_digit c.
Proof.
  apply Bool.eq_iff_eq_true. rewrite in_items_folded.
  cbn [flat_map members app]. rewrite app_nil_r. unfold is_digit. to_prop.
  split.
  - intros (x & Hx%In_range & Heq).
    destruct (fold_case_cases x) as [H|[H|[H|[H|[H|H]]]]],
             (fold_case_cases c) as [G|[G|[G|[G|[G|G]]]]]; lia.
  - intros H. exists c. by rewrite In_range.
Qed.

Lemma test_start_ic c : test true (AnyOf ident_start) c = is_start_ic c.
Proof.
  cbn [test]. unfold ident_start. rewrite in_items_app, test_letters_ic.
  rewrite in_items_chr by lia. done.
Qed.

Lemma test_body_ic c : test true (AnyOf ident_body) c = is_body_ic c.
Proof.
  cbn [test]. unfold ident_body.
  change [Rng 48 57; Chr 95; Chr dot] with ([Rng 48 57] ++ [Chr 95] ++ [Chr dot]).
  rewrite !in_items_app, test_letters_ic, in_items_digits.
  rewrite !in_items_chr by (unfold dot; lia).
  unfold is_body_ic. by rewrite !orb_assoc.
Qed.

Lemma test_quote_ic c : test true (AnyOf quotes) c = is_quote c.
Proof.
  cbn [test]. unfold quotes.
  change [Chr dquote; Chr squote] with ([Chr dquote] ++ [Chr squote]).
  rewrite in_items_app, !in_items_chr by (unfold dquote, squote; lia). done.
Qed.

Lemma test_nonquote_ic c : test true (NoneOf quotes) c = negb (is_quote c).
Proof. cbn [test]. f_equal. apply test_quote_ic. Qed.

Lemma test_delim_ic c :
  test true (AnyOf [Chr 58; Chr 61]) c = (c =? 58) || (c =? 61).
Proof.
  cbn [test]. change [Chr 58; Chr 61] with ([Chr 58] ++ [Chr 61]).
  rewrite in_items_app, !in_items_chr by lia. done.
Qed.

(** ** Greedy repetition *)

Lemma take_drop_while p s : take_while p s ++ drop_while p s = s.
Proof.
  induction s as [|c s IH]; simpl; [done|].
  destruct (p c); simpl; [by rewrite IH | done].
Qed.

Lemma take_while_ext p q s :
  (forall c, p c = q c) -> take_while p s = take_while q s.
Proof.
  intros H. induction s as [|c s IH]; simpl; [done|]. by rewrite H, IH.
Qed.

Lemma drop_while_ext p q s :
  (forall c, p c = q c) -> drop_while p s = drop_while q s.
Proof.
  intros H. induction s as [|c s IH]; simpl; [done|]. by rewrite H, IH.
Qed.

Lemma take_while_all p s : forallb p s = true -> take_while p s = s.
Proof.
  induction s as [|c s IH]; simpl; [done|].
  intros [-> H]%andb_true_iff. by rewrite IH.
Qed.

Lemma take_while_forallb p s : forallb p (take_while p s) = true.
Proof.
  induction s as [|c s IH]; simpl; [done|].
  destruct (p c) eqn:E; simpl; [by rewrite E | done].
Qed.

Lemma backoff_ext {B} p q s (k k' : str -> option B) :
  (forall c, p c = q c) -> (forall t, k t = k' t) ->
  backoff p s k = backoff q s k'.
Proof.
  intros Hp Hk. induction s as [|c s IH]; simpl; [apply Hk|].
  by rewrite Hp, IH, Hk.
Qed.

(** When what follows cannot start with a character of the class, nothing
    is given back. *)
Lemma backoff_all {B} p s (k : str -> option B) :
  (forall c t, p c = true -> k (c :: t) = None) ->
  backoff p s k = k (drop_while p s).
Proof.
  intros Hk. induction s as [|c s IH]; simpl; [done|].
  destruct (p c) eqn:E; [|done]. rewrite IH.
  destruct (k (drop_while p s)); [done|]. by apply Hk.
Qed.

Lemma star_head p s : head (star p s) = Some (take_while p s, drop_while p s).
Proof.
  induction s as [|c s IH]; simpl; [done|].
  destruct (p c); [|done].
  destruct (star p s) as [|[m t] l]; [done|].
  simpl in *. by injection IH as -> ->.
Qed.

Lemma head_run_plus ic a s :
  head (run ic (Plus a) s) =
  match s with
  | c :: s' =>
      if test ic a c
      then Some (c :: take_while (test ic a) s', None, drop_while (test ic a) s')
      else None
  | [] => None
  end.
Proof.
  cbn [run]. destruct s as [|c s]; [done|]. cbn [plus].
  destruct (test ic a c); [|done].
  rewrite !head_map, star_head. done.
Qed.

Lemma head_run_one_star ic a b s :
  head (run ic (Seq (One a) (Star b)) s) =
  match s with
  | c :: s' =>
      if test ic a c
      then Some (c :: take_while (test ic b) s', None, drop_while (test ic b) s')
      else None
  | [] => None
  end.
Proof.
  cbn [run]. destruct s as [|c s]; [done|]. cbn [one].
  destruct (test ic a c); [|done].
  cbn [map flat_map no_group fst snd]. rewrite app_nil_r, !head_map, star_head.
  done.
Qed.

Lemma head_run_group ic r s :
  head (run ic (Group r) s) =
  (fun w : way => (w.1.1, Some w.1.1, w.2)) <$> head (run ic r s).
Proof.
  cbn [run]. destruct (run ic r s) as [|[[m g] t] l]; reflexivity.
Qed.

(** When the first way of [r1] can be continued, the first way of the
    sequence starts with it; when [r1] has no way, neither has the
    sequence. *)
Lemma match_out_first ic r1 r2 s w o :
  head (run ic r1 s) = Some w -> match_out ic r2 w.2 = Some o ->
  match_out ic (Seq r1 r2) s = Some (later w.1.2 o.1, o.2).
Proof.
  unfold match_out. rewrite outs_seq.
  destruct (run ic r1 s) as [|w' l]; [done|]. intros [= ->] Ho.
  cbn [flat_map]. destruct (map out (run ic r2 w.2)) as [|o' l']; [done|].
  by injection Ho as ->.
Qed.

Lemma match_out_none ic r1 r2 s :
  head (run ic r1 s) = None -> match_out ic (Seq r1 r2) s = None.
Proof.
  unfold match_out. rewrite outs_seq. by destruct (run ic r1 s).
Qed.

(** ** Pattern 2 *)

Lemma pattern2_tail t :
  match_out false (cat [One (Lit dot); Plus (AnyOf ident_body)]) t =
  match t with
  | d :: e :: t' =>
      if (d =? dot) && is_body e then Some (None, drop_while is_body t')
      else None
  | _ => None
  end.
Proof.
  cbn [cat foldr]. rewrite match_out_one.
  destruct t as [|d t]; [done|]. rewrite test_dot.
  destruct (d =? dot); [|by destruct t]. cbn [andb].
  destruct t as [|e t].
  - by apply match_out_none.
  - pose proof (head_run_plus false (AnyOf ident_body) (e :: t)) as Hp.
    cbv beta iota in Hp. rewrite test_body in Hp. destruct (is_body e).
    + erewrite match_out_first; [| exact Hp | apply match_out_eps].
      cbn. f_equal. f_equal. apply drop_while_ext, test_body.
    + by apply match_out_none.
Qed.

Lemma inner_dot_cons c l :
  inner_dot (c :: l) =
  (inner_dot l || ((c =? dot) && match l with [] => false | _ => true end)).
Proof. simpl. rewrite orb_comm. by destruct l. Qed.

Lemma pattern2_backoff s :
  backoff is_body s
    (match_out false (cat [One (Lit dot); Plus (AnyOf ident_body)])) =
  if inner_dot (take_while is_body s)
  then Some (None, drop_while is_body s) else None.
Proof.
  induction s as [|c s IH]; [done|]. cbn [backoff take_while drop_while].
  destruct (is_body c) eqn:Ec.
  - rewrite IH, inner_dot_cons.
    destruct (inner_dot (take_while is_body s)); [done|]. cbn [orb].
    rewrite pattern2_tail. destruct s as [|e s]; [by rewrite andb_false_r|].
    cbn [take_while drop_while]. destruct (is_body e); [|by rewrite andb_false_r].
    by destruct (c =? dot).
  - rewrite pattern2_tail. destruct s as [|e s]; [done|].
    destruct (N.eqb_spec c dot) as [->|]; [|done]. done.
Qed.

Lemma pattern2_out s :
  match_out false pattern2 s = (fun x => (None, x.2)) <$> dotted_at s.
Proof.
  unfold pattern2. cbn [cat foldr]. rewrite match_out_one.
  destruct s as [|c s]; [done|]. rewrite test_start. unfold dotted_at.
  destruct (is_start c); [|done]. cbn [andb].
  rewrite match_out_star.
  rewrite (backoff_ext _ is_body _ _
             (match_out false (cat [One (Lit dot); Plus (AnyOf ident_body)])))
    by (done || apply test_body).
  rewrite pattern2_backoff. by destruct (inner_dot _).
Qed.

Lemma pattern2_match_at s :
  match_at false pattern2 s = (fun x => (x.1, None, x.2)) <$> dotted_at s.
Proof.
  rewrite match_at_of_out, pattern2_out.
  destruct s as [|c s]; [done|]. unfold dotted_at.
  destruct (is_start c && inner_dot (take_while is_body s)); [|done].
  cbn [fmap option_fmap option_map fst snd]. do 3 f_equal.
  rewrite <- (take_drop_while is_body s) at 1 3.
  cbn [length]. rewrite length_app.
  replace (S (length (take_while is_body s) + length (drop_while is_body s))
           - length (drop_while is_body s))%nat
    with (S (length (take_while is_body s))) by lia.
  cbn [take]. f_equal. by rewrite take_app_length.
Qed.

(** ** The scan *)

Lemma match_at_length ic r s w :
  match_at ic r s = Some w -> (length w.1.1 + length w.2 = length s)%nat.
Proof.
  intros H%head_In%run_split. by rewrite <- H, length_app.
Qed.

(** Without a group, a token is the text matched, so it is no longer than
    what was left to scan. *)
Lemma scan_token_length ic r k s tok :
  has_group r = false -> In tok (scan ic r k s) ->
  (length tok <= length s)%nat.
Proof.
  intros Hg. unfold reported. revert k.
  induction s as [|c s IH]; intros k; cbn [scan].
  - destruct k; [|done]. destruct (match_at ic r []) as [w|] eqn:E; [|done].
    intros [<-|[]]. unfold reported. rewrite Hg.
    apply match_at_length in E. simpl in *. lia.
  - destruct k as [|k].
    + destruct (match_at ic r (c :: s)) as [w|] eqn:E.
      * intros [<-|Hin].
        -- unfold reported. rewrite Hg. apply match_at_length in E. lia.
        -- apply IH in Hin. simpl. lia.
      * intros Hin. apply IH in Hin. simpl. lia.
    + intros Hin. apply IH in Hin. simpl. lia.
Qed.

Lemma scan_skip_all ic r s :
  match_at ic r [] = None -> scan ic r (length s) s = [].
Proof.
  intros H. induction s as [|c s IH]; cbn [scan length]; [by rewrite H | done].
Qed.

(** The strings that pattern 2 reports as one token, whole. *)
Lemma pattern2_whole t :
  findall false pattern2 t = [t] <-> dotted_name t = true.
Proof.
  unfold findall. destruct t as [|c s].
  - cbn. split; [intros [=] | done].
  - cbn [scan]. rewrite pattern2_match_at. unfold dotted_at, dotted_name.
    destruct (is_start c) eqn:Ec; cbn [andb].
    + destruct (inner_dot (take_while is_body s)) eqn:Ed.
      * cbn [fmap option_fmap option_map reported has_group pattern2 cat foldr
             orb fst snd length pred].
        split.
        -- intros [= Htw]. rewrite <- Htw at 1 2.
           by rewrite take_while_forallb, Htw in *.
        -- intros [Hall Hdot]%andb_true_iff.
           rewrite take_while_all by done.
           by rewrite scan_skip_all.
      * cbn [fmap option_fmap option_map]. split.
        -- intros H.
           assert (In (c :: s) (scan false pattern2 0 s)) as Hin
             by (rewrite H; by left).
           apply scan_token_length in Hin; [simpl in Hin; lia | done].
        -- intros [Hall Hdot]%andb_true_iff.
           rewrite take_while_all in Ed by done. congruence.
    + cbn [fmap option_fmap option_map]. split; [|done].
      intros H.
      assert (In (c :: s) (scan false pattern2 0 s)) as Hin
        by (rewrite H; by left).
      apply scan_token_length in Hin; [simpl in Hin; lia | done].
Qed.

(** ** C5 *)

(** C5, amended.  At any position pattern 2 matches exactly when the
    character there is a letter or an underscore and the longest run of
    letters, digits, underscores and dots that follows it contains a dot
    with at least one more character of the run after it; the match is
    that first character with the whole run.  Hence a string is reported
    whole, as one token, exactly when it starts with a letter or an
    underscore, continues with letters, digits, underscores and dots, and
    has a dot after its first character that is not its last character;
    [transformer.0.mha.qkv] is such a token. *)
Theorem dotted_scan_matches :
  (forall s, match_at false pattern2 s
             = (fun x => (x.1, None, x.2)) <$> dotted_at s) /\
  (forall t, bool_decide (findall false pattern2 t = [t]) = dotted_name t) /\
  findall false pattern2 (py "x transformer.0.mha.qkv y")
    = [py "transformer.0.mha.qkv"].
Proof.
  split; [apply pattern2_match_at|]. split; [|by vm_compute].
  intros t. apply Bool.eq_iff_eq_true. rewrite bool_decide_eq_true.
  apply pattern2_whole.
Qed.

(** C5 as stated fails: [1.2] is a run of identifier characters with a
    dot, and the scan finds nothing in it. *)
Lemma dotted_identifier_claim_fails : ~ dotted_identifier_claim (py "1.2").
Proof.
  unfold dotted_identifier_claim. intros H.
  specialize (H eq_refl). vm_compute in H. discriminate H.
Qed.

(** ** Pattern 3 *)

Lemma pattern3_token u :
  match_out true (cat [pattern3_group]) u =
  match u with
  | c :: u' =>
      if is_start_ic c
      then Some (Some (c :: take_while is_body_ic u'), drop_while is_body_ic u')
      else None
  | [] => None
  end.
Proof.
  cbn [cat foldr]. unfold pattern3_group.
  pose proof (head_run_group true
                (Seq (One (AnyOf ident_start)) (Star (AnyOf ident_body))) u) as Hg.
  rewrite head_run_one_star in Hg.
  destruct u as [|c u].
  - by apply match_out_none.
  - rewrite test_start_ic in Hg. destruct (is_start_ic c).
    + erewrite match_out_first; [| exact Hg | apply match_out_eps].
      cbn. do 2 f_equal.
      * do 2 f_equal. apply take_while_ext, test_body_ic.
      * apply drop_while_ext, test_body_ic.
    + by apply match_out_none.
Qed.

Lemma pattern3_backoff s :
  backoff (fun c => negb (is_letter_ic c)) s (match_out true (cat [pattern3_group]))
  = (fun x => (Some x.1, x.2)) <$> node_after s.
Proof.
  unfold node_after. induction s as [|c s IH]; [done|].
  cbn [backoff drop_while after_last_underscore].
  destruct (negb (is_letter_ic c)) eqn:Ec.
  - rewrite IH.
    destruct (drop_while (fun c => negb (is_letter_ic c)) s) as [|d t]; [|done].
    destruct (after_last_underscore s) as [t|]; [done|].
    cbn [mbind option_bind fmap option_fmap option_map].
    rewrite pattern3_token. unfold is_start_ic.
    apply negb_true_iff in Ec. rewrite Ec. cbn [orb].
    destruct (N.eqb_spec c 95) as [->|]; done.
  - rewrite pattern3_token. unfold is_start_ic.
    apply negb_false_iff in Ec. by rewrite Ec.
Qed.

Lemma pattern3_out s :
  match_out true pattern3 s = (fun x => (Some x.1, x.2)) <$> marker_at s.
Proof.
  assert (Hafter : forall t,
    match_out true (cat [Star (NoneOf letters); pattern3_group]) t
    = (fun x => (Some x.1, x.2)) <$> node_after t).
  { intros t. change (cat [Star (NoneOf letters); pattern3_group])
      with (Seq (Star (NoneOf letters)) (cat [pattern3_group])).
    rewrite match_out_star, <- pattern3_backoff.
    apply backoff_ext; [apply test_nonletter_ic | done]. }
  assert (Hword : forall m,
    match_out true (Seq (word m) (cat [Star (NoneOf letters); pattern3_group])) s
    = (fun x => (Some x.1, x.2)) <$> (strip_ic (py m) s ≫= node_after)).
  { intros m. unfold word, lits. rewrite match_out_word.
    destruct (strip_ic (py m) s) as [t|]; [apply Hafter | done]. }
  unfold pattern3. fold pattern3_group.
  change (cat [?a; ?b; ?c]) with (Seq a (cat [b; c])).
  rewrite !match_out_alt, !Hword. unfold marker_at, markers.
  cbn [omap list_omap].
  destruct (strip_ic (py "COMP_NODE") s ≫= node_after); [done|].
  destruct (strip_ic (py "COLL_COMM_NODE") s ≫= node_after); [done|].
  destruct (strip_ic (py "COMP") s ≫= node_after); [done|].
  destruct (strip_ic (py "COMM") s ≫= node_after); done.
Qed.

Lemma pattern3_match_at s :
  match_at true pattern3 s = way_of s <$> marker_at s.
Proof.
  rewrite match_at_of_out, pattern3_out. by destruct (marker_at s).
Qed.

(** ** Pattern 1 *)

Lemma space_not_quote c : is_space c = true -> is_quote c = false.
Proof. unfold is_space, is_quote, dquote, squote. to_prop. lia. Qed.

Lemma space_not_delim c : is_space c = true -> (c =? 58) || (c =? 61) = false.
Proof. unfold is_space. to_prop. lia. Qed.

Lemma quote_not_space c : is_quote c = true -> is_space c = false.
Proof.
  intros H. destruct (is_space c) eqn:E; [|done].
  apply space_not_quote in E. congruence.
Qed.

Lemma quote_not_delim c : is_quote c = true -> (c =? 58) || (c =? 61) = false.
Proof. unfold is_quote, dquote, squote. to_prop. lia. Qed.

Lemma match_out_word_app m rest s :
  match_out true (cat (map (fun c => One (Lit c)) m ++ rest)) s =
  strip_ic m s ≫= match_out true (cat rest).
Proof.
  revert s. induction m as [|x m IH]; intros s; [done|].
  cbn [map app cat foldr]. rewrite match_out_one.
  destruct s as [|c s]; [done|]. cbn [strip_ic test].
  destruct (fold_case x =? fold_case c); [apply IH | done].
Qed.

Lemma pattern1_closing t :
  match_out true (cat [Opt (AnyOf quotes)]) t = Some (None, strip_quote t).
Proof.
  cbn [cat foldr]. rewrite match_out_opt, match_out_eps.
  destruct t as [|c t]; [done|]. rewrite test_quote_ic, match_out_eps.
  unfold strip_quote. by destruct (is_quote c).
Qed.

Lemma pattern1_token y :
  match_out true (cat [Group (Plus (NoneOf quotes)); Opt (AnyOf quotes)]) y =
  match take_while (fun c => negb (is_quote c)) y with
  | [] => None
  | tok => Some (Some tok, strip_quote (drop_while (fun c => negb (is_quote c)) y))
  end.
Proof.
  change (cat [?a; ?b]) with (Seq a (cat [b])).
  pose proof (head_run_group true (Plus (NoneOf quotes)) y) as Hg.
  rewrite head_run_plus in Hg.
  destruct y as [|c y].
  - by apply match_out_none.
  - rewrite test_nonquote_ic in Hg. cbn [take_while drop_while].
    destruct (negb (is_quote c)).
    + erewrite match_out_first; [| exact Hg | apply pattern1_closing].
      cbn. do 2 f_equal.
      * do 2 f_equal. apply take_while_ext, test_nonquote_ic.
      * f_equal. apply drop_while_ext, test_nonquote_ic.
    + by apply match_out_none.
Qed.

Lemma pattern1_quoted x :
  match_out true
    (cat [Opt (AnyOf quotes); Group (Plus (NoneOf quotes)); Opt (AnyOf quotes)]) x
  = match_out true (cat [Group (Plus (NoneOf quotes)); Opt (AnyOf quotes)])
      (strip_quote x).
Proof.
  change (cat [?a; ?b; ?c]) with (Seq a (cat [b; c])).
  rewrite match_out_opt. destruct x as [|c x]; [done|].
  rewrite test_quote_ic. unfold strip_quote.
  destruct (is_quote c) eqn:Ec; [|done].
  destruct (match_out true _ x); [done|]. cbn [or_else].
  rewrite pattern1_token. cbn [take_while]. by rewrite Ec.
Qed.

Lemma pattern1_backoff u :
  backoff is_space u
    (match_out true
       (cat [Opt (AnyOf quotes); Group (Plus (NoneOf quotes)); Opt (AnyOf quotes)]))
  = (fun x => (Some x.1, x.2)) <$> value_at u.
Proof.
  unfold value_at. induction u as [|c u IH].
  - cbn [backoff]. by rewrite pattern1_quoted, pattern1_token.
  - cbn [backoff]. destruct (is_space c) eqn:Ec.
    + rewrite IH. clear IH. cbn [take_while drop_while]. rewrite Ec.
      destruct (take_while (fun c0 => negb (is_quote c0))
                  (strip_quote (drop_while is_space u))) as [|e tok] eqn:Et;
        [|done].
      rewrite last_cons.
      destruct (last (take_while is_space u)) as [sp|] eqn:El; [done|].
      apply last_None in El.
      assert (drop_while is_space u = u) as Hd.
      { rewrite <- (take_drop_while is_space u) at 2. by rewrite El. }
      rewrite Hd in *.
      cbn [mbind option_bind fmap option_fmap option_map or_else fst snd].
      rewrite pattern1_quoted, pattern1_token.
      assert (is_quote c = false) as Hq by (by apply space_not_quote).
      assert (strip_quote (c :: u) = c :: u) as ->
        by (unfold strip_quote; by rewrite Hq).
      cbn [take_while drop_while]. rewrite Hq. cbn [negb].
      assert (take_while (fun c0 => negb (is_quote c0)) u = [] /\
              drop_while (fun c0 => negb (is_quote c0)) u = u) as [-> ->]; [|done].
      destruct u as [|d u]; [done|]. unfold strip_quote in Et.
      cbn [take_while drop_while]. destruct (is_quote d) eqn:Eq; [done|].
      cbn [take_while] in Et. by rewrite Eq in Et.
    + cbn [take_while drop_while]. rewrite Ec.
      rewrite pattern1_quoted, pattern1_token.
      by destruct (take_while _ (strip_quote (c :: u))).
Qed.

Lemma pattern1_value u :
  match_out true
    (cat [Star Space; Opt (AnyOf quotes); Group (Plus (NoneOf quotes));
          Opt (AnyOf quotes)]) u
  = (fun x => (Some x.1, x.2)) <$> value_at u.
Proof.
  change (cat [?a; ?b; ?c; ?d]) with (Seq a (cat [b; c; d])).
  rewrite match_out_star. change (test true Space) with is_space.
  apply pattern1_backoff.
Qed.

Lemma pattern1_delim t :
  match_out true
    (cat [Star Space; One (AnyOf [Chr 58; Chr 61]); Star Space;
          Opt (AnyOf quotes); Group (Plus (NoneOf quotes)); Opt (AnyOf quotes)]) t
  = (fun x => (Some x.1, x.2)) <$> delimited_at t.
Proof.
  change (cat [?a; ?b; ?c; ?d; ?e; ?f]) with (Seq a (Seq b (cat [c; d; e; f]))).
  rewrite match_out_star. change (test true Space) with is_space.
  unfold delimited_at. rewrite backoff_all.
  - rewrite match_out_one.
    destruct (drop_while is_space t) as [|d s4]; [done|].
    rewrite test_delim_ic. destruct ((d =? 58) || (d =? 61)); [|done].
    apply pattern1_value.
  - intros c u Hc. rewrite match_out_one, test_delim_ic.
    by rewrite (space_not_delim c Hc).
Qed.

Lemma delimited_at_quote c t : is_quote c = true -> delimited_at (c :: t) = None.
Proof.
  intros Hc. unfold delimited_at. cbn [drop_while].
  by rewrite (quote_not_space c Hc), (quote_not_delim c Hc).
Qed.

Lemma pattern1_out s :
  match_out true pattern1 s = (fun x => (Some x.1, x.2)) <$> labeled_at s.
Proof.
  unfold pattern1, lits, labeled_at. rewrite match_out_word_app.
  destruct (strip_ic (py "name") s) as [s1|]; [|done].
  cbn [mbind option_bind].
  change (cat (?a :: ?l)) with (Seq a (cat l)).
  rewrite match_out_opt, pattern1_delim.
  destruct s1 as [|c s1]; [done|]. rewrite test_quote_ic. unfold strip_quote.
  destruct (is_quote c) eqn:Ec; [|done].
  rewrite pattern1_delim.
  destruct (delimited_at s1); [done|].
  by rewrite (delimited_at_quote c s1 Ec).
Qed.

Lemma pattern1_match_at s :
  match_at true pattern1 s = way_of s <$> labeled_at s.
Proof.
  rewrite match_at_of_out, pattern1_out. by destruct (labeled_at s).
Qed.

(** ** Where tokens come from *)

Lemma scan_origin ic r k s tok :
  In tok (scan ic r k s) ->
  exists s' w, match_at ic r s' = Some w /\ tok = reported r w.
Proof.
  revert k. induction s as [|c s IH]; intros k; cbn [scan].
  - destruct k; [|done]. destruct (match_at ic r []) as [w|] eqn:E; [|done].
    intros [<-|[]]. eauto.
  - destruct k as [|k]; [|apply IH].
    destruct (match_at ic r (c :: s)) as [w|] eqn:E; [|apply IH].
    intros [<-|Hin]; [eauto | by eapply IH].
Qed.

Lemma forallb_elem (p : N -> bool) (l : str) x :
  forallb p l = true -> x ∈ l -> p x = true.
Proof.
  intros H Hin. rewrite forallb_forall in H. apply H.
  by apply list_elem_of_In.
Qed.

Lemma drop_while_head p s c t : drop_while p s = c :: t -> p c = false.
Proof.
  induction s as [|d s IH]; [done|]. cbn [drop_while].
  destruct (p d) eqn:E; [done|]. by intros [= <- _].
Qed.

Lemma value_at_token u tok rest :
  value_at u = Some (tok, rest) ->
  tok <> [] /\ forallb (fun c => negb (is_quote c)) tok = true.
Proof.
  unfold value_at.
  destruct (take_while (fun c => negb (is_quote c))
              (strip_quote (drop_while is_space u))) as [|e l] eqn:Et.
  - destruct (last (take_while is_space u)) as [sp|] eqn:El; [|done].
    intros [= <- _]. split; [done|]. cbn [forallb]. rewrite andb_true_r.
    apply last_Some_elem_of in El.
    apply (forallb_elem is_space) in El; [|apply take_while_forallb].
    by rewrite (space_not_quote sp El).
  - intros [= <- _]. split; [done|]. rewrite <- Et. apply take_while_forallb.
Qed.

Lemma labeled_at_token s tok rest :
  labeled_at s = Some (tok, rest) ->
  tok <> [] /\ forallb (fun c => negb (is_quote c)) tok = true.
Proof.
  unfold labeled_at, delimited_at.
  destruct (strip_ic (py "name") s) as [s1|]; [|done]. cbn [mbind option_bind].
  destruct (drop_while is_space (strip_quote s1)) as [|d s4]; [done|].
  destruct ((d =? 58) || (d =? 61)); [apply value_at_token | done].
Qed.

Lemma node_after_token s tok rest :
  node_after s = Some (tok, rest) ->
  match tok with
  | c :: body => is_start_ic c && forallb is_body_ic body
  | [] => false
  end = true.
Proof.
  unfold node_after.
  destruct (drop_while (fun c => negb (is_letter_ic c)) s) as [|c t] eqn:Ed.
  - destruct (after_last_underscore s) as [t|]; [|done].
    intros [= <- _]. by rewrite take_while_forallb.
  - intros [= <- _]. apply drop_while_head in Ed.
    apply negb_false_iff in Ed. unfold is_start_ic. rewrite Ed.
    apply take_while_forallb.
Qed.

Lemma marker_at_token s tok rest :
  marker_at s = Some (tok, rest) ->
  match tok with
  | c :: body => is_start_ic c && forallb is_body_ic body
  | [] => false
  end = true.
Proof.
  unfold marker_at, markers. cbn [omap list_omap].
  destruct (strip_ic (py "COMP_NODE") s ≫= node_after) as [x|] eqn:E1;
    [intros [= ->] |
     destruct (strip_ic (py "COLL_COMM_NODE") s ≫= node_after) as [x|] eqn:E2;
       [intros [= ->] |
        destruct (strip_ic (py "COMP") s ≫= node_after) as [x|] eqn:E3;
          [intros [= ->] |
           destruct (strip_ic (py "COMM") s ≫= node_after) as [x|] eqn:E4;
             [intros [= ->] | done]]]];
    match goal with
    | E : strip_ic ?m s ≫= node_after = Some _ |- _ =>
        destruct (strip_ic m s) as [t|]; [|done];
        by apply node_after_token in E
    end.
Qed.

(** ** C3 *)

(** C3, amended.  At any position pattern 1 matches exactly as
    [labeled_at] says: the four letters of [name] in either case, one
    optional quote, white space, a colon or an equals sign that has to be
    there, white space, one optional quote, and then the token, the longest
    run of characters other than the two quotes, whatever they are, with
    one closing quote consumed after it; when no such character follows,
    the token is the last white-space character skipped after the colon or
    equals sign.  Every token of the scan is non-empty and holds no quote.
    In the example the label is in mixed case and the first value holds a
    space. *)
Theorem labeled_scan_matches :
  (forall s, match_at true pattern1 s = way_of s <$> labeled_at s) /\
  (forall text tok, tok ∈ findall true pattern1 text ->
     tok <> [] /\ forallb (fun c => negb (is_quote c)) tok = true) /\
  findall true pattern1 (py "NaMe = 'mha qkv' name:conv1")
    = [py "mha qkv"; py "conv1"].
Proof.
  split; [apply pattern1_match_at|]. split; [|by vm_compute].
  intros text tok Hin. apply list_elem_of_In in Hin.
  apply scan_origin in Hin as (s' & w & Hw & ->).
  rewrite pattern1_match_at in Hw.
  destruct (labeled_at s') as [[tok rest]|] eqn:E; [|done].
  injection Hw as <-. by apply labeled_at_token in E.
Qed.

Lemma labeled_scan_matches_witness :
  py "a b" <> [] /\ forallb (fun c => negb (is_quote c)) (py "a b") = true.
Proof.
  apply (proj1 (proj2 labeled_scan_matches) (py "name=a b") (py "a b")).
  vm_compute. left.
Defined.

(** C3 as stated fails twice: the label followed by a quoted value without
    colon or equals sign yields no token, and a token may hold a space. *)
Lemma labeled_field_claim_fails :
  ~ labeled_field_claim [] [dquote] (py "conv1") [dquote] /\
  ~ labeled_token_claim (py "name=a b").
Proof.
  split.
  - intros H.
    assert (findall true pattern1
              (py "name" ++ [] ++ [dquote] ++ py "conv1" ++ [dquote])
            = [py "conv1"]) as Hf
      by (apply H; [set_solver | set_solver | set_solver | done | done]).
    vm_compute in Hf. discriminate Hf.
  - intros H. specialize (H (py "a b")).
    assert (forallb is_value_char (py "a b") = true) as Hf
      by (apply H; vm_compute; left).
    vm_compute in Hf. discriminate Hf.
Qed.

(** ** C4 *)

(** C4, amended.  At any position pattern 3 matches exactly as
    [marker_at] says: the markers COMP_NODE, COLL_COMM_NODE, COMP and COMM
    are tried in this order, in either case; after a marker every
    character that is not a letter is skipped, digits, underscores and dots
    included, and the token is the run of letters, digits, underscores and
    dots that starts at the first letter found; when the text ends before
    a letter is found the token starts at the last underscore skipped, and
    when there is none the next marker is tried.  Every token of the scan
    starts with a letter or an underscore and continues with letters,
    digits, underscores and dots. *)
Theorem marker_scan_matches :
  (forall s, match_at true pattern3 s = way_of s <$> marker_at s) /\
  (forall text tok, tok ∈ findall true pattern3 text ->
     match tok with
     | c :: body => is_start_ic c && forallb is_body_ic body
     | [] => false
     end = true) /\
  findall true pattern3 (py "comp_node: foo.bar, Coll_Comm_Node 7 all_reduce.x")
    = [py "foo.bar"; py "all_reduce.x"] /\
  findall true pattern3 (py "COMP_NODE 12") = [py "NODE"].
Proof.
  split; [apply pattern3_match_at|]. split; [|by vm_compute].
  intros text tok Hin. apply list_elem_of_In in Hin.
  apply scan_origin in Hin as (s' & w & Hw & ->).
  rewrite pattern3_match_at in Hw.
  destruct (marker_at s') as [[tok rest]|] eqn:E; [|done].
  injection Hw as <-. by apply marker_at_token in E.
Qed.

Lemma marker_scan_matches_witness :
  is_start_ic 102 && forallb is_body_ic (py "oo.bar") = true.
Proof.
  apply (proj1 (proj2 marker_scan_matches) (py "COMP_NODE foo.bar") (py "foo.bar")).
  vm_compute. left.
Defined.

(** C4 as stated fails: after the marker and a space the identifier [_x]
    follows, and the token is [x], the underscore having been skipped. *)
Lemma node_marker_claim_fails :
  ~ node_marker_claim (py "COMM") (py " ") (py "_x").
Proof.
  intros H.
  assert (findall true pattern3 (py "COMM" ++ py " " ++ py "_x") = [py "_x"])
    as Hf by (apply H; [set_solver | done | done]).
  vm_compute in Hf. discriminate Hf.
Qed.

(** * Further properties of the script *)

(** ** Usage, exit status and the files opened *)

(** X1.  Called with no path argument, whatever the file system holds, the
    run prints the usage text of the script, the error line and the
    example line, opens no file and ends with status one. *)
Theorem usage_error (w : World) (argv : list str) :
  (length argv < 2)%nat ->
  run_main w argv =
  {| printed := [ doc;
                  [newline] ++ py "Error: Please provide path to .et file(s)";
                  py "Example: python verify_attention_only.py generated_attn/" ];
     reads := [];
     status := 1 |}.
Proof.
  intros Hlen. destruct argv as [|prog [|path extra]];
    [reflexivity | reflexivity | simpl in Hlen; lia].
Qed.

Lemma usage_error_witness :
  status (run_main sample_world [py "verify_attention_only.py"]) = 1 /\
  reads (run_main sample_world [py "verify_attention_only.py"]) = [].
Proof.
  rewrite (usage_error sample_world [py "verify_attention_only.py"]).
  - split; reflexivity.
  - simpl. lia.
Defined.

Lemma run_main_no_files w prog path extra :
  find_et_files w path = inr [] ->
  main w (prog :: path :: extra) fresh =
  (inl (SystemExit 1),
   printing (py "Error: No .et files found in: " ++ path) fresh).
Proof.
  intros H. unfold main. cbn [length Nat.ltb Nat.leb nth].
  rewrite H. reflexivity.
Qed.

Lemma run_main_selected w prog path extra first others :
  find_et_files w path = inr (first :: others) ->
  exists c, main w (prog :: path :: extra) fresh = (inr tt, c) /\
            opened c = [first].
Proof.
  intros H. destruct (main_selected first) as (report & Hq & Hmain).
  rewrite (Hmain _ _ _ _ _ _ H).
  unfold mbind, IO_bind, print. rewrite extract_operations_eq.
  destruct (read w first) as [msg|content]; cbv beta iota zeta;
    match goal with |- context [report ?u ?k ?c] =>
      destruct (Hq u k c) as (c' & lines & -> & Ho & _) end;
    exists c'; by rewrite Ho.
Qed.

(** An exception of the resolution is raised before anything is printed or
    opened, and nothing catches it. *)
Lemma run_main_raises w prog path extra msg :
  find_et_files w path = inl msg ->
  main w (prog :: path :: extra) fresh = (inl (Exception msg), fresh).
Proof.
  intros H. unfold main. cbn [length Nat.ltb Nat.leb nth].
  rewrite H. reflexivity.
Qed.

(** X2.  How a run ends depends on the arguments and the resolution only.
    [main] leaves through [sys.exit(1)] when the path argument is missing
    or resolves to no file; it ends on an exception exactly when the
    resolution of the path raises one, which nothing catches, and then
    nothing has been printed or opened; it returns in every other case,
    whatever the file selected contains and whether or not it can be read.
    The exit status is zero when [main] returns and one otherwise. *)
Theorem exit_status (w : World) (argv : list str) :
  (main w argv fresh).1 =
    (if (length argv <? 2)%nat then inl (SystemExit 1)
     else match find_et_files w (nth 1 argv []) with
          | inl msg => inl (Exception msg)
          | inr [] => inl (SystemExit 1)
          | inr (_ :: _) => inr tt
          end) /\
  status (run_main w argv) =
    match (main w argv fresh).1 with inr _ => 0 | inl _ => 1 end /\
  forall msg, (main w argv fresh).1 = inl (Exception msg) ->
    find_et_files w (nth 1 argv []) = inl msg /\
    run_main w argv = {| printed := []; reads := []; status := 1 |}.
Proof.
  unfold run_main.
  destruct argv as [|prog [|path extra]];
    [by repeat split | by repeat split |].
  cbn [length Nat.ltb Nat.leb nth].
  destruct (find_et_files w path) as [e|[|first others]] eqn:H.
  - rewrite (run_main_raises w prog path extra e H).
    split; [done|]. split; [done|]. by intros ? [= <-].
  - rewrite (run_main_no_files w prog path extra H). by repeat split.
  - destruct (run_main_selected w prog path extra first others H) as (c & -> & _).
    by repeat split.
Qed.

Lemma exit_status_witness :
  run_main limited_world [py "verify_attention_only.py"; long_name] =
  {| printed := []; reads := []; status := 1 |}.
Proof.
  apply (proj2 (proj2 (exit_status limited_world
                         [py "verify_attention_only.py"; long_name]))
           (ENAMETOOLONG long_name)).
  vm_compute. reflexivity.
Defined.

(** X3.  A run opens at most one file, and a file it opens is the first
    one of the sequence that the resolution of its path argument returned,
    whose name ends in [.et]: nothing else is ever opened. *)
Theorem opens_one_et_file (w : World) (argv : list str) (f : str) :
  f ∈ reads (run_main w argv) ->
  reads (run_main w argv) = [f] /\
  (exists others, find_et_files w (nth 1 argv []) = inr (f :: others)) /\
  endswith f (py ".et") = true.
Proof.
  unfold run_main.
  destruct argv as [|prog [|path extra]];
    [by intros ?%elem_of_nil | by intros ?%elem_of_nil |].
  cbn [nth]. destruct (find_et_files w path) as [e|[|first others]] eqn:H.
  - rewrite (run_main_raises w prog path extra e H). by intros ?%elem_of_nil.
  - rewrite (run_main_no_files w prog path extra H). by intros ?%elem_of_nil.
  - destruct (run_main_selected w prog path extra first others H) as (c & -> & Ho).
    cbn [reads]. rewrite Ho.
    intros Hf%list_elem_of_singleton. subst first.
    split; [done|]. split; [by eexists|].
    apply (find_et_files_et w path (f :: others)); [done | left].
Qed.

Lemma opens_one_et_file_witness :
  reads (run_main sample_world [py "verify_attention_only.py"; py "gen/*"])
    = [py "gen/b.et"] /\
  endswith (py "gen/b.et") (py ".et") = true.
Proof.
  destruct (opens_one_et_file sample_world
              [py "verify_attention_only.py"; py "gen/*"] (py "gen/b.et"))
    as (Hr & _ & He).
  - vm_compute. left.
  - split; [exact Hr | exact He].
Defined.

(** ** When the resolution is empty *)

Lemma filter_nil_iff (P : str -> Prop) `{!forall x, Decision (P x)} (l : list str) :
  filter P l = [] <-> forall x, x ∈ l -> ~ P x.
Proof.
  induction l as [|y l IH].
  - split; [by intros _ x ?%elem_of_nil | done].
  - rewrite filter_cons. destruct (decide (P y)) as [Hy|Hy].
    + split; [done|]. intros Hall. exfalso. apply (Hall y); [left | done].
    + rewrite IH. split.
      * intros Hall x [->|Hx]%elem_of_cons; [done | by apply Hall].
      * intros Hall x Hx. apply Hall. by right.
Qed.

Lemma sorted_nil_iff l : sorted l = [] <-> l = [].
Proof.
  split; [|by intros ->].
  intros Hs. apply Permutation_nil_r. by rewrite <- sorted_Permutation, Hs.
Qed.

Lemma no_et_iff (l : list str) :
  filter (fun f => endswith f et = true) l = [] <->
  forall f, f ∈ l -> endswith f et = false.
Proof.
  rewrite filter_nil_iff.
  split; intros H f Hin; specialize (H f Hin); by destruct (endswith f et).
Qed.

(** X4.  The resolution of a path returns the empty sequence, and the run
    is therefore fatal, exactly when the stats behind [is_file] and
    [is_dir] raise nothing, the path is not an existing regular file with
    a name ending in [.et], and the scan of the directory, if it is one,
    or else its glob expansion, raises nothing and yields no path ending
    in [.et]. *)
Theorem resolution_empty_iff (w : World) (path : str) :
  find_et_files w path = inr [] <->
  exists file dir listing,
    is_file w path = inr file /\
    file && endswith path (py ".et") = false /\
    is_dir w path = inr dir /\
    (if dir then iterdir w path else glob w path) = inr listing /\
    forall f, f ∈ listing -> endswith f (py ".et") = false.
Proof.
  fold et. destruct (is_file w path) as [e|file] eqn:Hfile.
  { unfold find_et_files. rewrite Hfile.
    split; [done | by intros (? & ? & ? & ? & _)]. }
  rewrite (find_et_files_answered _ _ _ Hfile).
  destruct (file && endswith path et) eqn:Hpath.
  { split; [done|]. intros (file' & ? & ? & [= <-] & Hp & _). congruence. }
  destruct (is_dir w path) as [e|[]].
  - split; [done | by intros (? & ? & ? & _ & _ & ? & _)].
  - destruct (iterdir w path) as [e|entries].
    + split; [done | by intros (? & ? & ? & _ & _ & [= <-] & ? & _)].
    + split.
      * intros [= H]. apply (proj1 (sorted_nil_iff _)) in H.
        exists file, true, entries. do 4 (split; [done|]). by apply no_et_iff.
      * intros (? & ? & l & _ & _ & [= <-] & [= <-] & H).
        f_equal. by apply sorted_nil_iff, no_et_iff.
  - destruct (glob w path) as [e|expansion].
    + split; [done | by intros (? & ? & ? & _ & _ & [= <-] & ? & _)].
    + split.
      * intros [= H]. exists file, false, expansion.
        do 4 (split; [done|]). by apply no_et_iff.
      * intros (? & ? & l & _ & _ & [= <-] & [= <-] & H).
        f_equal. by apply no_et_iff.
Qed.

Lemma resolution_empty_iff_witness :
  find_et_files sample_world (py "gen/n.txt") = inr [].
Proof.
  apply resolution_empty_iff.
  exists true, false, [py "gen/n.txt"].
  repeat split; try by vm_compute.
  intros f Hin. apply list_elem_of_singleton in Hin. by subst f.
Defined.

(** ** What the scans yield *)

Lemma scan_origin_suffix ic r k s tok :
  In tok (scan ic r k s) ->
  exists pre s' w, s = pre ++ s' /\ match_at ic r s' = Some w /\
                   tok = reported r w.
Proof.
  revert k. induction s as [|c s IH]; intros k; cbn [scan].
  - destruct k; [|done]. destruct (match_at ic r []) as [w|] eqn:E; [|done].
    intros [<-|[]]. by exists [], [], w.
  - assert (forall k', In tok (scan ic r k' s) ->
              exists pre s' w, c :: s = pre ++ s' /\ match_at ic r s' = Some w /\
                               tok = reported r w) as Hrec.
    { intros k' Hin. destruct (IH _ Hin) as (pre & s' & w & -> & Hw & ->).
      by exists (c :: pre), s', w. }
    destruct k as [|k]; [|apply Hrec].
    destruct (match_at ic r (c :: s)) as [w|] eqn:E; [|apply Hrec].
    intros [<-|Hin]; [by exists [], (c :: s), w | by eapply Hrec].
Qed.

(** The text of group 1 lies inside the text matched. *)
Lemma run_group_inside ic r s w g :
  In w (run ic r s) -> w.1.2 = Some g ->
  exists a b, w.1.1 = a ++ g ++ b.
Proof.
  revert s w g. induction r; intros s w g; cbn [run].
  - by intros [<-|[]].
  - rewrite in_map_iff. by intros (x & <- & _).
  - rewrite in_map_iff. by intros (x & <- & _).
  - rewrite in_map_iff. by intros (x & <- & _).
  - rewrite in_map_iff. by intros (x & <- & _).
  - rewrite in_flat_map. intros ([[m1 g1] s1] & H1 & H2).
    apply in_map_iff in H2 as ([[m2 g2] s2] & <- & H2). cbn [fst snd].
    destruct g2 as [g2|]; cbn [later].
    + intros [= <-]. destruct (IHr2 _ _ g2 H2 eq_refl) as (a & b & E).
      cbn [fst snd] in E. exists (m1 ++ a), b. by rewrite E, <- app_assoc.
    + intros ->. destruct (IHr1 _ _ g H1 eq_refl) as (a & b & E).
      cbn [fst snd] in E. exists a, (b ++ m2). by rewrite E, <- !app_assoc.
  - rewrite in_app_iff. intros [H|H]; [by eapply IHr1 | by eapply IHr2].
  - rewrite in_map_iff. intros ([[m g'] t] & <- & _). cbn [fst snd].
    intros [= <-]. exists [], []. by rewrite app_nil_r.
Qed.

Lemma reported_inside ic r s w :
  match_at ic r s = Some w ->
  exists a b, s = a ++ reported r w ++ b.
Proof.
  intros H. apply head_In in H. pose proof (run_split _ _ _ _ H) as Hs.
  unfold reported. destruct (has_group r).
  - destruct (w.1.2) as [g|] eqn:Eg.
    + destruct (run_group_inside _ _ _ _ _ H Eg) as (a & b & E).
      exists a, (b ++ w.2). cbn [default]. by rewrite <- Hs, E, <- !app_assoc.
    + by exists [], s.
  - exists [], w.2. by rewrite <- Hs.
Qed.

Lemma findall_inside ic r text tok :
  tok ∈ findall ic r text -> exists before after, text = before ++ tok ++ after.
Proof.
  intros Hin%list_elem_of_In.
  apply scan_origin_suffix in Hin as (pre & s' & w & -> & Hw & ->).
  apply reported_inside in Hw as (a & b & ->).
  exists (pre ++ a), b. by rewrite <- !app_assoc.
Qed.

Lemma findall_pattern1_nonempty text tok :
  tok ∈ findall true pattern1 text -> tok <> [].
Proof.
  intros Hin%list_elem_of_In.
  apply scan_origin in Hin as (s' & w & Hw & ->).
  rewrite pattern1_match_at in Hw.
  destruct (labeled_at s') as [[tok rest]|] eqn:E; [|done].
  injection Hw as <-. by apply labeled_at_token in E as [? _].
Qed.

Lemma findall_pattern2_dotted text tok :
  tok ∈ findall false pattern2 text -> dotted_name tok = true.
Proof.
  intros Hin%list_elem_of_In.
  apply scan_origin in Hin as (s' & w & Hw & ->).
  rewrite pattern2_match_at in Hw. destruct s' as [|c s']; [done|].
  unfold dotted_at in Hw.
  destruct (is_start c) eqn:Ec; [|done]. cbn [andb] in Hw.
  destruct (inner_dot (take_while is_body s')) eqn:Ed; [|done].
  injection Hw as <-. cbn. by rewrite Ec, Ed, take_while_forallb.
Qed.

Lemma findall_pattern3_nonempty text tok :
  tok ∈ findall true pattern3 text -> tok <> [].
Proof.
  intros Hin%list_elem_of_In.
  apply scan_origin in Hin as (s' & w & Hw & ->).
  rewrite pattern3_match_at in Hw.
  destruct (marker_at s') as [[tok rest]|] eqn:E; [|done].
  injection Hw as <-. apply marker_at_token in E. by destruct tok.
Qed.

(** X5.  Every token of the three scans is a non-empty piece of the text,
    found in it as it stands: the scans neither invent characters nor yield
    the empty string. *)
Theorem tokens_are_pieces_of_text (content tok : str) :
  tok ∈ node_names content ->
  tok <> [] /\ exists before after, content = before ++ tok ++ after.
Proof.
  unfold node_names. rewrite !elem_of_app. intros [H|[H|H]].
  - split; [by eapply findall_pattern1_nonempty | by eapply findall_inside].
  - split; [|by eapply findall_inside].
    apply findall_pattern2_dotted in H. by destruct tok.
  - split; [by eapply findall_pattern3_nonempty | by eapply findall_inside].
Qed.

Lemma tokens_are_pieces_of_text_witness :
  exists before after, sample_text = before ++ py "foo.bar" ++ after.
Proof.
  apply (tokens_are_pieces_of_text sample_text (py "foo.bar")).
  vm_compute. do 2 right. left.
Defined.

(** X6.  Every token of the dotted-identifier scan starts with a letter or
    an underscore, continues with letters, digits, underscores and dots and
    has a dot inside; scanned on its own, it is found again, whole and
    alone. *)
Theorem dotted_tokens_rescan (text tok : str) :
  tok ∈ findall false pattern2 text ->
  dotted_name tok = true /\ findall false pattern2 tok = [tok].
Proof.
  intros H%findall_pattern2_dotted. split; [done | by apply pattern2_whole].
Qed.

Lemma dotted_tokens_rescan_witness :
  findall false pattern2 (py "transformer.0.mha.qkv") = [py "transformer.0.mha.qkv"].
Proof.
  apply (dotted_tokens_rescan sample_text (py "transformer.0.mha.qkv")).
  vm_compute. left.
Defined.

(** ** Tokens come from disjoint stretches of the text *)

Lemma match_at_nil_None ic r : nullable r = false -> match_at ic r [] = None.
Proof.
  intros Hn. destruct (match_at ic r []) as [w|] eqn:E; [|done].
  apply head_In in E. pose proof (run_split _ _ _ _ E) as Hs.
  apply (run_consumes _ _ _ _ Hn) in E. by destruct (w.1.1).
Qed.

Lemma reported_length ic r s w :
  match_at ic r s = Some w -> (length (reported r w) <= length w.1.1)%nat.
Proof.
  intros H. apply head_In in H. unfold reported. destruct (has_group r); [|done].
  destruct (w.1.2) as [g|] eqn:Eg; [|simpl; lia].
  destruct (run_group_inside _ _ _ _ _ H Eg) as (a & b & ->).
  change (default [] (Some g)) with g. rewrite !length_app. lia.
Qed.

Lemma scan_total_length ic r k s :
  nullable r = false ->
  (length (concat (scan ic r k s)) <= length s - k)%nat /\
  (length (scan ic r k s) <= length s - k)%nat.
Proof.
  intros Hn. revert k. induction s as [|c s IH]; intros k; cbn [scan].
  - rewrite (match_at_nil_None ic r Hn). by destruct k.
  - destruct k as [|k].
    + destruct (match_at ic r (c :: s)) as [w|] eqn:E.
      * pose proof (reported_length _ _ _ _ E) as Hr.
        pose proof (match_at_length _ _ _ _ E) as Hl.
        assert (w.1.1 <> []) as Hne
          by (apply head_In in E; by apply (run_consumes _ _ _ _ Hn) in E).
        assert (1 <= length w.1.1)%nat by (destruct (w.1.1); [done | simpl; lia]).
        destruct (IH (pred (length w.1.1))) as [IH1 IH2].
        cbn [concat length] in *. rewrite length_app. lia.
      * destruct (IH 0%nat) as [IH1 IH2]. cbn [length]. lia.
    + destruct (IH k) as [IH1 IH2]. cbn [length]. lia.
Qed.

(** X7.  In each of the three scans the tokens come from stretches of the
    text that do not overlap: their lengths add up to at most the length
    of the text, and there are at most as many tokens as characters.  The
    empty text yields no token at all. *)
Theorem scans_are_bounded (content : str) :
  (length (concat (findall true pattern1 content)) <= length content)%nat /\
  (length (concat (findall false pattern2 content)) <= length content)%nat /\
  (length (concat (findall true pattern3 content)) <= length content)%nat /\
  (length (node_names content) <= 3 * length content)%nat /\
  node_names [] = [].
Proof.
  unfold findall, node_names, findall.
  destruct (scan_total_length true pattern1 0 content eq_refl) as [A1 A2].
  destruct (scan_total_length false pattern2 0 content eq_refl) as [B1 B2].
  destruct (scan_total_length true pattern3 0 content eq_refl) as [C1 C2].
  rewrite !length_app. repeat split; try lia. 
Qed.

(** ** A dotted name standing clear is always found *)

Lemma is_start_body c : is_start c = true -> is_body c = true.
Proof.
  unfold is_start, is_body, is_ident. intros [->|H]%orb_true_iff; [done|].
  rewrite H. by rewrite !orb_true_r.
Qed.

Lemma take_while_app_stop p a s x :
  x ∈ a -> p x = false ->
  take_while p (a ++ s) = take_while p a /\
  drop_while p (a ++ s) = drop_while p a ++ s.
Proof.
  intros Hin Hx. induction a as [|y a IH]; [by apply elem_of_nil in Hin|].
  cbn [app take_while drop_while]. destruct (p y) eqn:Ey; [|done].
  apply elem_of_cons in Hin as [->|Hin]; [congruence|].
  destruct (IH Hin) as [-> ->]. done.
Qed.

Lemma take_while_app_all p a s :
  forallb p a = true ->
  take_while p (a ++ s) = a ++ take_while p s /\
  drop_while p (a ++ s) = drop_while p s.
Proof.
  induction a as [|y a IH]; [done|]. cbn [forallb app take_while drop_while].
  intros [-> Ha]%andb_true_iff. by destruct (IH Ha) as [-> ->].
Qed.

Lemma take_while_length_lt p a x :
  x ∈ a -> p x = false -> (length (take_while p a) < length a)%nat.
Proof.
  intros Hin Hx. induction a as [|y a IH]; [by apply elem_of_nil in Hin|].
  cbn [take_while]. destruct (p y) eqn:Ey; [|simpl; lia].
  apply elem_of_cons in Hin as [->|Hin]; [congruence|].
  specialize (IH Hin). simpl. lia.
Qed.

Lemma scan_skip ic r a s : scan ic r (length a) (a ++ s) = scan ic r 0 s.
Proof. induction a as [|y a IH]; [done | apply IH]. Qed.

Lemma scan_pattern2_app pre s k :
  ends_clean pre -> (k <= length pre)%nat ->
  scan false pattern2 k (pre ++ s) =
  scan false pattern2 k pre ++ scan false pattern2 0 s.
Proof.
  revert k. induction pre as [|c pre IH]; intros k Hclean Hk.
  - assert (k = 0%nat) as -> by (simpl in Hk; lia). done.
  - assert (ends_clean pre) as Hclean'.
    { unfold ends_clean in *. destruct pre as [|d pre]; [done|].
      by rewrite last_cons_cons in Hclean. }
    cbn [app scan]. destruct k as [|k]; [|apply IH; [done | simpl in Hk; lia]].
    rewrite !pattern2_match_at.
    destruct pre as [|d pre].
    + unfold ends_clean in Hclean. cbn [last] in Hclean.
      assert (is_start c = false) as Ec.
      { destruct (is_start c) eqn:E; [|done].
        apply is_start_body in E. congruence. }
      unfold dotted_at. rewrite Ec. cbn [andb fmap option_fmap option_map].
      by apply IH.
    + assert (exists x, x ∈ d :: pre /\ is_body x = false) as (x & Hx & Hb).
      { unfold ends_clean in Hclean'.
        destruct (last (d :: pre)) as [x|] eqn:El; [|by apply last_None in El].
        exists x. split; [by apply last_Some_elem_of | done]. }
      destruct (take_while_app_stop is_body (d :: pre) s x Hx Hb) as [Et Ed].
      unfold dotted_at. rewrite Et.
      destruct (is_start c && inner_dot (take_while is_body (d :: pre)));
        cbn [fmap option_fmap option_map fst snd]; unfold reported;
        change (has_group pattern2) with false; cbn [fst snd length pred app].
      * f_equal. apply IH; [done|].
        pose proof (take_while_length_lt is_body (d :: pre) x Hx Hb). lia.
      * apply IH; [done | lia].
Qed.

(** X8.  A dotted name that stands clear in the text, with nothing or a
    character that is no letter, digit, underscore or dot on either side,
    is always found by the dotted-identifier scan, whole, between the
    tokens of what precedes it and those of what follows. *)
Theorem dotted_name_found (pre tok post : str) :
  dotted_name tok = true -> ends_clean pre -> starts_clean post ->
  findall false pattern2 (pre ++ tok ++ post) =
  findall false pattern2 pre ++ tok :: findall false pattern2 post.
Proof.
  intros Htok Hpre Hpost. unfold findall.
  rewrite scan_pattern2_app by (done || lia). f_equal.
  destruct tok as [|c body]; [done|]. cbn [dotted_name] in Htok.
  apply andb_true_iff in Htok as [[Hc Hall]%andb_true_iff Hdot].
  cbn [app scan]. rewrite pattern2_match_at. unfold dotted_at.
  destruct (take_while_app_all is_body body post Hall) as [Et Ed].
  assert (take_while is_body post = [] /\ drop_while is_body post = post)
    as [Et' Ed'].
  { destruct post as [|d post]; [done|]. cbn in Hpost. cbn. by rewrite Hpost. }
  rewrite Et, Et', app_nil_r, Hc, Hdot.
  cbn [andb fmap option_fmap option_map fst snd]. unfold reported.
  change (has_group pattern2) with false. cbn [fst snd length pred].
  f_equal. apply scan_skip.
Qed.

Lemma dotted_name_found_witness :
  findall false pattern2 (py "op: " ++ py "transformer.0.mha.qkv" ++ py ", x") =
  findall false pattern2 (py "op: ") ++
  py "transformer.0.mha.qkv" :: findall false pattern2 (py ", x").
Proof.
  apply dotted_name_found; [by vm_compute | by vm_compute | by vm_compute].
Defined.

(** ** The grouping key *)

Lemma join_cons_cons sep p q ps :
  join sep (p :: q :: ps) = p ++ sep ++ join sep (q :: ps).
Proof. done. Qed.

Lemma join_split sep t : join [sep] (split sep t) = t.
Proof.
  induction t as [|c t IH]; [done|]. cbn [split].
  pose proof (split_nonempty sep t) as Hne.
  destruct (N.eqb_spec c sep) as [->|Hc].
  - destruct (split sep t) as [|q ps]; [done|]. by rewrite <- IH.
  - destruct (split sep t) as [|p [|q ps]]; [done | |]; by rewrite <- IH.
Qed.

Lemma split_app_sep sep p rest :
  sep ∉ p -> split sep (p ++ sep :: rest) = p :: split sep rest.
Proof.
  induction p as [|c p IH]; intros Hni; cbn [app split].
  - by rewrite N.eqb_refl.
  - apply not_elem_of_cons in Hni as [Hne Hni].
    destruct (N.eqb_spec c sep); [congruence|]. by rewrite IH.
Qed.

Lemma split_join sep parts :
  parts <> [] -> Forall (fun p => sep ∉ p) parts ->
  split sep (join [sep] parts) = parts.
Proof.
  induction parts as [|p [|q ps] IH]; [done | |]; intros _ Hall.
  - apply Forall_cons in Hall as [Hp _]. by apply split_no_sep.
  - apply Forall_cons in Hall as [Hp Hall].
    rewrite join_cons_cons. cbn [app]. rewrite split_app_sep by done.
    by rewrite IH.
Qed.

Lemma split_parts_clean sep t : Forall (fun p => sep ∉ p) (split sep t).
Proof.
  induction t as [|c t IH]; cbn [split].
  - constructor; [by intros ?%elem_of_nil | constructor].
  - destruct (N.eqb_spec c sep) as [->|Hc].
    + constructor; [by intros ?%elem_of_nil | done].
    + destruct (split sep t) as [|p ps].
      { constructor; [|constructor].
        intros Hin. apply list_elem_of_singleton in Hin. congruence. }
      apply Forall_cons in IH as [Hp Hps]. constructor; [|done].
      intros [?|?]%elem_of_cons; [congruence | done].
Qed.

Lemma prefix_of_take3 t : prefix_of t = join [dot] (take 3 (split dot t)).
Proof.
  unfold prefix_of. pose proof (join_split dot t) as Hj.
  pose proof (split_nonempty dot t) as Hne.
  destruct (split dot t) as [|p [|q [|r ps]]]; try done.
Qed.

Lemma join_take_prefix sep n parts :
  exists rest, join sep parts = join sep (take n parts) ++ rest.
Proof.
  revert n. induction parts as [|p parts IH]; intros n.
  - exists []. by destruct n.
  - destruct n as [|n]; [by eexists|]. cbn [take].
    destruct parts as [|q ps].
    + exists []. rewrite take_nil. by rewrite app_nil_r.
    + destruct (IH n) as [rest Hrest]. rewrite join_cons_cons, Hrest.
      destruct n as [|n]; cbn [take].
      * eexists. cbn [join]. reflexivity.
      * rewrite join_cons_cons. eexists. by rewrite <- !app_assoc.
Qed.

(** X9.  The grouping key of an operation is a leading part of its name;
    it has at most three dot-separated segments; taking the key of a key
    changes nothing; and an operation is its own key exactly when its name
    has at most three segments. *)
Theorem key_is_leading_part (op : str) :
  (exists rest, op = prefix_of op ++ rest) /\
  (length (split dot (prefix_of op)) <= 3)%nat /\
  prefix_of (prefix_of op) = prefix_of op /\
  (prefix_of op = op <-> (length (split dot op) <= 3)%nat).
Proof.
  pose proof (split_nonempty dot op) as Hne.
  pose proof (split_parts_clean dot op) as Hclean.
  assert (split dot (prefix_of op) = take 3 (split dot op)) as Hsplit.
  { rewrite prefix_of_take3. apply split_join.
    - by destruct (split dot op).
    - by apply Forall_take. }
  split; [|split; [|split]].
  - destruct (join_take_prefix [dot] 3 (split dot op)) as [rest Hrest].
    exists rest. by rewrite prefix_of_take3, <- Hrest, join_split.
  - rewrite Hsplit, length_take. lia.
  - rewrite (prefix_of_take3 (prefix_of op)), Hsplit, take_take.
    by rewrite prefix_of_take3.
  - split.
    + intros H. rewrite <- H at 1. rewrite Hsplit, length_take. lia.
    + intros H. rewrite prefix_of_take3, take_ge by done. apply join_split.
Qed.

(** ** The groups *)

Lemma length_flat_map_filter_cons {K} `{EqDecision K}
    (f : str -> K) (x : str) (l : list str) (ks : list K) :
  length (flat_map (fun k => filter (fun y => f y = k) (x :: l)) ks) =
  (length (flat_map (fun k => filter (fun y => f y = k) l) ks)
   + length (filter (fun k => f x = k) ks))%nat.
Proof.
  induction ks as [|k ks IH]; [done|].
  cbn [flat_map]. rewrite !length_app, IH, !filter_cons.
  destruct (decide (f x = k)); simpl; lia.
Qed.

Lemma filter_eq_NoDup {K} `{EqDecision K} (k : K) (ks : list K) :
  NoDup ks -> k ∈ ks -> length (filter (fun k' => k = k') ks) = 1%nat.
Proof.
  induction 1 as [|y ks Hni Hnd IH]; intros Hin; [by apply elem_of_nil in Hin|].
  rewrite filter_cons. destruct (decide (k = y)) as [<-|Hne].
  - simpl. f_equal.
    destruct (filter (fun k' => k = k') ks) as [|z zs] eqn:Hf; [done|].
    assert (z ∈ filter (fun k' => k = k') ks) as Hz by (rewrite Hf; left).
    apply list_elem_of_filter in Hz as [<- Hz]. done.
  - apply elem_of_cons in Hin as [?|Hin]; [congruence | by apply IH].
Qed.

Lemma length_partition {K} `{EqDecision K}
    (f : str -> K) (l : list str) (ks : list K) :
  NoDup ks -> (forall x, x ∈ l -> f x ∈ ks) ->
  length (flat_map (fun k => filter (fun y => f y = k) l) ks) = length l.
Proof.
  intros Hnd. induction l as [|x l IH]; intros Hin.
  - clear Hnd Hin. induction ks as [|k ks IHk]; [done|]. cbn [flat_map].
    rewrite filter_nil. exact IHk.
  - rewrite length_flat_map_filter_cons, IH, filter_eq_NoDup.
    + simpl. lia.
    + done.
    + apply Hin. left.
    + intros y Hy. apply Hin. by right.
Qed.

Lemma group_default l k :
  default [] (group_by_prefix l !! k) = filter (fun t => prefix_of t = k) l.
Proof.
  rewrite group_by_prefix_lookup. by destruct (filter _ l).
Qed.

Lemma elem_of_dom_groups l k :
  k ∈ dom (group_by_prefix l) <-> exists t, t ∈ l /\ prefix_of t = k.
Proof.
  rewrite elem_of_dom, group_by_prefix_lookup. split.
  - destruct (filter (fun t => prefix_of t = k) l) as [|t ts] eqn:Hf;
      [by intros [? [=]]|].
    intros _. exists t.
    assert (t ∈ filter (fun t => prefix_of t = k) l) as Ht by (rewrite Hf; left).
    by apply list_elem_of_filter in Ht as [? ?].
  - intros (t & Ht & Hk).
    assert (t ∈ filter (fun t => prefix_of t = k) l) as Hin
      by (by apply list_elem_of_filter).
    destruct (filter (fun t => prefix_of t = k) l); [by apply elem_of_nil in Hin|].
    by eexists.
Qed.

(** X10.  The grouping loop splits the list of operations in parts: the
    group of a key holds, in the order of the list, the operations that
    have this key; a key has a group exactly when some operation of the
    list has this key, so that no group is empty; and the sizes of the
    groups add up to the length of the list. *)
Theorem groups_split_the_list (unique_ops : list str) :
  let grouped := group_by_prefix unique_ops in
  (forall key, default [] (grouped !! key)
               = filter (fun op => prefix_of op = key) unique_ops) /\
  (forall key, key ∈ dom grouped <->
               exists op, op ∈ unique_ops /\ prefix_of op = key) /\
  (forall key, grouped !! key <> Some []) /\
  length (flat_map (fun key => default [] (grouped !! key))
            (elements (dom grouped))) = length unique_ops.
Proof.
  intros grouped. subst grouped.
  split; [apply group_default|]. split; [apply elem_of_dom_groups|]. split.
  - intros key. rewrite group_by_prefix_lookup. by destruct (filter _ unique_ops).
  - erewrite flat_map_ext; [|intros key; apply group_default].
    apply (length_partition prefix_of).
    + apply NoDup_elements.
    + intros x Hx. rewrite elem_of_elements, elem_of_dom_groups. eauto.
Qed.

(** ** The report *)

Lemma appends_print s : appends (print s) [s].
Proof. by intros c. Qed.

Lemma appends_bind (m : IO unit) (k : unit -> IO unit) l1 l2 :
  appends m l1 -> (forall u, appends (k u) l2) -> appends (m ≫= k) (l1 ++ l2).
Proof.
  intros Hm Hk c. unfold mbind, IO_bind. rewrite Hm, Hk. cbn [stdout opened].
  by rewrite app_assoc.
Qed.

Lemma appends_for_each {A} (l : list A) (body : A -> IO unit) g :
  (forall x, appends (body x) (g x)) -> appends (for_each l body) (flat_map g l).
Proof.
  intros Hb. induction l as [|x l IH]; cbn [for_each flat_map].
  - intros [out ops]. cbn. by rewrite app_nil_r.
  - apply appends_bind; [apply Hb | intros _; apply IH].
Qed.

Lemma appends_eq (m : IO unit) l l' : appends m l -> l = l' -> appends m l'.
Proof. by intros H <-. Qed.

Lemma flat_map_singleton {A B} (f : A -> B) (l : list A) :
  flat_map (fun x => [f x]) l = map f l.
Proof. induction l as [|x l IH]; [done|]. cbn. by rewrite IH. Qed.

(** Once a first file is selected, [main] announces it, extracts its
    operations and prints the lines of the report. *)
Lemma main_report (first : str) :
  exists report : list str -> gmap str nat -> IO unit,
    (forall u k, appends (report u k) (report_lines first u k)) /\
    forall w prog path extra others c,
      find_et_files w path = inr (first :: others) ->
      main w (prog :: path :: extra) c =
      (print (py "Analyzing: " ++ first ++ [newline]) ;;
       '(u, k) ← extract_operations w first;
       report u k) c.
Proof.
  eexists. split.
  2: { intros w prog path extra others c H. unfold main.
       cbn [length Nat.ltb Nat.leb nth]. rewrite H.
       unfold mbind at 1 2. unfold IO_bind at 1 2. cbn [mret IO_ret raising].
       rewrite bool_decide_eq_false_2 by done. cbn [nth].
       reflexivity. }
  intros u k. cbv beta. eapply appends_eq.
  - repeat first
      [ apply appends_print
      | eapply appends_for_each; intros ?
      | eapply appends_bind; [|intros ?] ].
  - unfold report_lines. cbv zeta. cbn [app].
    rewrite flat_map_singleton. do 5 f_equal.
Qed.

Lemma sorted_of_sorted l : StronglySorted str_le l -> sorted l = l.
Proof.
  intros H. apply sorted_unique; [apply sorted_Sorted | done |].
  apply sorted_Permutation.
Qed.

Lemma StronglySorted_filter_str (P : str -> Prop) `{!forall x, Decision (P x)} l :
  StronglySorted str_le l -> StronglySorted str_le (filter P l).
Proof.
  induction 1 as [|x l Hl IH Hx]; [constructor|].
  rewrite filter_cons. destruct (decide (P x)); [|done].
  constructor; [done|]. rewrite Forall_forall in *.
  intros y [_ Hy]%list_elem_of_filter. by apply Hx.
Qed.

Lemma sorted_keys l :
  sorted (elements (dom (group_by_prefix l)))
  = sorted (remove_dups (map prefix_of l)).
Proof.
  apply sorted_unique; try apply sorted_Sorted.
  rewrite !sorted_Permutation.
  apply NoDup_Permutation; [apply NoDup_elements | apply NoDup_remove_dups |].
  intros k. rewrite elem_of_elements, elem_of_dom_groups, elem_of_remove_dups.
  change (map prefix_of l) with (prefix_of <$> l). rewrite list_elem_of_fmap.
  split; intros (t & ? & ?); exists t; by split.
Qed.

(** X11.  When the first file of the resolution can be read, the run
    prints, in this order: the announcement; the header with the base name
    of the file; the number of distinct tokens; for every key, the keys
    being taken in increasing order without repetition, the key, then the
    tokens that have this key, in the increasing order of the whole list,
    each with the number of times the scans produced it, then an empty
    line; the heading of the second section; and every distinct token in
    increasing order with the same number.  It opens that file only and
    ends with status zero. *)
Theorem report_layout
    (w : World) (prog path : str) (extra : list str)
    (first : str) (others : list str) (content : bytes) :
  find_et_files w path = inr (first :: others) ->
  read w first = inr content ->
  let names := node_names (decode_utf8_ignore content) in
  let unique := sorted (remove_dups names) in
  let keys := sorted (remove_dups (map prefix_of unique)) in
  run_main w (prog :: path :: extra) =
  {| printed :=
       [ py "Analyzing: " ++ first ++ [newline];
         rule;
         py "Operations found in " ++ basename first;
         rule;
         [newline] ++ py "Total unique operations: "
           ++ str_of_nat (length unique) ++ [newline];
         py "Operations grouped by prefix:" ++ [newline] ]
       ++ flat_map (fun key =>
            [key ++ py ":"]
            ++ map (fun op => py "  - " ++ op ++ py " (appears "
                              ++ str_of_nat (occurrences op names)
                              ++ py " time(s))")
                   (filter (fun op => prefix_of op = key) unique)
            ++ [[]])
            keys
       ++ [ [newline] ++ rule; py "All unique operations (sorted):"; rule ]
       ++ map (fun op => py "  " ++ op ++ py " ("
                         ++ str_of_nat (occurrences op names) ++ py ")")
              unique;
     reads := [first];
     status := 0 |}.
Proof.
  intros H Hread names unique keys.
  destruct (main_report first) as (report & Hrep & Hmain).
  unfold run_main. rewrite (Hmain _ _ _ _ _ _ H).
  unfold mbind, IO_bind, print. rewrite extract_operations_eq, Hread.
  cbv beta iota zeta. rewrite Hrep. cbn [stdout opened printing opening fresh app].
  fold names. rewrite (unique_sorted_dedup names). fold unique.
  f_equal. f_equal. unfold report_lines. cbv zeta. cbn [app].
  do 5 f_equal. rewrite sorted_keys. fold keys.
  assert (StronglySorted str_le unique) as Hsorted by apply sorted_Sorted.
  f_equal.
  - apply flat_map_ext. intros key. do 2 f_equal.
    rewrite group_default, sorted_of_sorted
      by (by apply StronglySorted_filter_str).
    apply map_ext. intros op. by rewrite count_of_Counter.
  - do 3 f_equal. apply map_ext. intros op. by rewrite count_of_Counter.
Qed.

Lemma report_layout_witness :
  printed (run_main sample_world [py "verify_attention_only.py"; py "gen/*"]) =
  [ py "Analyzing: gen/b.et" ++ [newline];
    rule;
    py "Operations found in b.et";
    rule;
    [newline] ++ py "Total unique operations: 2" ++ [newline];
    py "Operations grouped by prefix:" ++ [newline];
    py "foo.bar:";
    py "  - foo.bar (appears 2 time(s))";
    [];
    py "transformer.0.mha:";
    py "  - transformer.0.mha.qkv (appears 2 time(s))";
    [];
    [newline] ++ rule;
    py "All unique operations (sorted):";
    rule;
    py "  foo.bar (2)";
    py "  transformer.0.mha.qkv (2)" ].
Proof.
  rewrite (report_layout sample_world (py "verify_attention_only.py")
             (py "gen/*") [] (py "gen/b.et") [py "gen/a.et"] sample_text).
  - vm_compute. reflexivity.
  - vm_compute. reflexivity.
  - vm_compute. reflexivity.
Defined.

(** ** The text read from the file *)

Lemma decode_ascii bs :
  forallb (fun b => b <? 128) bs = true -> decode_utf8_ignore bs = bs.
Proof.
  induction bs as [|b bs IH]; [done|]. cbn [forallb decode_utf8_ignore].
  intros [-> H]%andb_true_iff. by rewrite IH.
Qed.

Ltac bools_to_props :=
  repeat match goal with
    | H : _ = true |- _ =>
        first [ apply andb_true_iff in H as [? ?]
              | apply orb_true_iff in H
              | apply negb_true_iff in H
              | apply N.ltb_lt in H
              | apply N.leb_le in H
              | apply N.eqb_eq in H ]
    | H : _ = false |- _ =>
        first [ apply orb_false_iff in H as [? ?]
              | apply andb_false_iff in H
              | apply negb_false_iff in H
              | apply N.ltb_ge in H
              | apply N.leb_gt in H
              | apply N.eqb_neq in H ]
    end.

Lemma decode_wellformed_upto n bs :
  (length bs <= n)%nat ->
  (length (decode_utf8_ignore bs) <= length bs)%nat /\
  forallb is_scalar (decode_utf8_ignore bs) = true.
Proof.
  revert bs. induction n as [|n IH]; intros bs Hn.
  { destruct bs; [done | simpl in Hn; lia]. }
  destruct bs as [|b0 t0]; [done|]. cbn [decode_utf8_ignore].
  repeat case_match; subst; cbn [length forallb] in *;
    try (split; [lia | reflexivity]);
    match goal with
    | |- context [decode_utf8_ignore ?t] =>
        destruct (IH t) as [Hl Hs]; [cbn [length] in *; lia|];
        cbn [length] in Hl;
        rewrite ?Hs, ?andb_true_r; (split; [lia|]); try done
    end;
    unfold is_cont, is_scalar in *; bools_to_props;
    apply orb_true_iff; rewrite andb_true_iff, !N.ltb_lt; lia.
Qed.

(** X12.  The text handed back for a file is never longer than the file
    has bytes and holds Unicode scalar values only, whatever the bytes
    are; a file made of ASCII bytes is handed back unchanged, character
    for byte; and when the file cannot be read the text is empty. *)
Theorem text_of_file (w : World) (file_path : str) (c : Console) :
  exists s c',
    extract_strings_from_binary w file_path c = (inr s, c') /\
    forallb is_scalar s = true /\
    match read w file_path with
    | inr content =>
        (length s <= length content)%nat /\
        (forallb (fun b => b <? 128) content = true -> s = content)
    | inl _ => s = []
    end.
Proof.
  rewrite extract_strings_from_binary_eq.
  destruct (read w file_path) as [msg|content].
  - by eexists _, _.
  - destruct (decode_wellformed_upto (length content) content (le_n _))
      as [Hl Hs].
    eexists _, _. split; [done|]. split; [done|]. split; [done|].
    apply decode_ascii.
Qed.

Lemma text_of_file_witness :
  (extract_strings_from_binary sample_world (py "gen/b.et") fresh).1
    = inr sample_text.
Proof.
  destruct (text_of_file sample_world (py "gen/b.et") fresh)
    as (s & c' & -> & _ & H).
  cbn [fst]. f_equal.
  assert (read sample_world (py "gen/b.et") = inr sample_text) as Hr
    by (vm_compute; reflexivity).
  rewrite Hr in H. destruct H as [_ H]. apply H. vm_compute. reflexivity.
Defined.

Lemma key_is_leading_part_witness : prefix_of (py "a.b.c") = py "a.b.c".
Proof.
  apply (proj2 (proj2 (proj2 (key_is_leading_part (py "a.b.c"))))).
  vm_compute. lia.
Defined.

Lemma groups_split_the_list_witness :
  py "a.b.c" ∈ dom (group_by_prefix [py "a"; py "a.b"; py "a.b.c"; py "a.b.c.d"]).
Proof.
  apply (proj1 (proj2 (groups_split_the_list
                         [py "a"; py "a.b"; py "a.b.c"; py "a.b.c.d"]))).
  exists (py "a.b.c.d"). split; [do 3 right; left | by vm_compute].
Defined.

(** ** Labelled values and marked names that are always found *)

Lemma strip_ic_same label marker rest :
  same_ic label marker -> strip_ic marker (label ++ rest) = Some rest.
Proof.
  unfold same_ic. revert label. induction marker as [|x marker IH];
    intros [|c label]; try done. cbn [map app strip_ic].
  intros [= Hc Hl]. rewrite Hc, N.eqb_refl. by apply IH.
Qed.

Lemma drop_while_app_all p a s :
  forallb p a = true -> drop_while p (a ++ s) = drop_while p s.
Proof. intros H. by destruct (take_while_app_all p a s H). Qed.

Lemma match_at_found ic r s pre tok post :
  s = pre ++ post -> match_out ic r s = Some (Some tok, post) ->
  match_at ic r s = Some (pre, Some tok, post).
Proof.
  intros -> H. rewrite match_at_of_out, H.
  cbn [fmap option_fmap option_map fst snd]. do 3 f_equal.
  rewrite length_app.
  replace (length pre + length post - length post)%nat with (length pre) by lia.
  by rewrite take_app_length.
Qed.

Lemma value_at_quoted ws2 q1 value q2 post :
  forallb is_space ws2 = true -> is_quote q1 = true -> is_quote q2 = true ->
  value <> [] -> forallb (fun c => negb (is_quote c)) value = true ->
  value_at (ws2 ++ q1 :: value ++ q2 :: post) = Some (value, post).
Proof.
  intros Hws2 Hq1 Hq2 Hne Hvalue. unfold value_at. cbv zeta.
  rewrite !drop_while_app_all by done. cbn [drop_while].
  rewrite (quote_not_space q1 Hq1). cbn [strip_quote]. rewrite Hq1.
  destruct (take_while_app_all (fun c => negb (is_quote c)) value
              (q2 :: post) Hvalue) as [Et Ed].
  rewrite Et, Ed. cbn [take_while drop_while]. rewrite Hq2. cbn [negb].
  rewrite app_nil_r. destruct value; [done|]. cbn [strip_quote].
  by rewrite Hq2.
Qed.

(** X13.  A labelled value written as the label [name] in any mix of
    cases, white space, a colon or an equals sign, white space, a quote, a
    non-empty value without quotes and a closing quote is matched where it
    starts, whatever follows it, and its token is the value as it stands,
    spaces included. *)
Theorem labelled_value_found (label ws1 ws2 value post : str) (delim q1 q2 : N) :
  same_ic label (py "name") ->
  forallb is_space ws1 = true -> forallb is_space ws2 = true ->
  (delim =? 58) || (delim =? 61) = true ->
  is_quote q1 = true -> is_quote q2 = true ->
  value <> [] -> forallb (fun c => negb (is_quote c)) value = true ->
  match_at true pattern1
    (label ++ ws1 ++ [delim] ++ ws2 ++ [q1] ++ value ++ [q2] ++ post)
  = Some (label ++ ws1 ++ [delim] ++ ws2 ++ [q1] ++ value ++ [q2],
          Some value, post).
Proof.
  intros Hlabel Hws1 Hws2 Hdelim Hq1 Hq2 Hne Hvalue.
  apply match_at_found; [by rewrite <- !app_assoc|].
  rewrite pattern1_out. unfold labeled_at.
  rewrite (strip_ic_same label (py "name")) by done. cbn [mbind option_bind].
  assert (is_quote delim = false) as Hdq.
  { destruct (is_quote delim) eqn:E; [|done].
    apply quote_not_delim in E. congruence. }
  assert (is_space delim = false) as Hds.
  { destruct (is_space delim) eqn:E; [|done].
    apply space_not_delim in E. congruence. }
  assert (strip_quote (ws1 ++ [delim] ++ ws2 ++ [q1] ++ value ++ [q2] ++ post)
          = ws1 ++ [delim] ++ ws2 ++ [q1] ++ value ++ [q2] ++ post) as ->.
  { unfold strip_quote. destruct ws1 as [|c ws1]; cbn [app].
    - by rewrite Hdq.
    - cbn [forallb] in Hws1. apply andb_true_iff in Hws1 as [Hc _].
      by rewrite (space_not_quote c Hc). }
  unfold delimited_at. rewrite drop_while_app_all by done.
  cbn [app drop_while]. rewrite Hds, Hdelim.
  by rewrite (value_at_quoted ws2 q1 value q2 post).
Qed.

Lemma labelled_value_found_witness :
  match_at true pattern1 (py "NaMe" ++ py " " ++ [61] ++ py " " ++ [squote]
                          ++ py "mha qkv" ++ [squote] ++ py " rest")
  = Some (py "NaMe" ++ py " " ++ [61] ++ py " " ++ [squote]
          ++ py "mha qkv" ++ [squote],
          Some (py "mha qkv"), py " rest").
Proof.
  apply labelled_value_found; by vm_compute.
Defined.

Lemma node_after_clean gap c body post :
  forallb (fun c => negb (is_letter_ic c)) gap = true ->
  is_letter_ic c = true -> forallb is_body_ic body = true ->
  starts_clean_ic post ->
  node_after (gap ++ c :: body ++ post) = Some (c :: body, post).
Proof.
  intros Hgap Hc Hbody Hpost. unfold node_after.
  rewrite drop_while_app_all by done. cbn [drop_while]. rewrite Hc. cbn [negb].
  destruct (take_while_app_all is_body_ic body post Hbody) as [-> ->].
  assert (take_while is_body_ic post = [] /\ drop_while is_body_ic post = post)
    as [-> ->].
  { destruct post as [|d post]; [done|]. cbn in Hpost. cbn. by rewrite Hpost. }
  by rewrite app_nil_r.
Qed.

Lemma strip_ic_other_marker label rest :
  same_ic label (py "COLL_COMM_NODE") ->
  strip_ic (py "COMP_NODE") (label ++ rest) = None.
Proof.
  unfold same_ic.
  change (map fold_case (py "COLL_COMM_NODE"))
    with [99; 111; 108; 108; 95; 99; 111; 109; 109; 95; 110; 111; 100; 101].
  change (py "COMP_NODE") with [67; 79; 77; 80; 95; 78; 79; 68; 69].
  destruct label as [|c1 [|c2 [|c3 label]]]; try done.
  cbn [map app strip_ic]. intros [= H1 H2 H3 _]. by rewrite H1, H2, H3.
Qed.

(** X14.  A name that follows the marker COMP_NODE or COLL_COMM_NODE,
    written in any mix of cases, after any characters that are not
    letters, is matched where the marker starts: when the name begins with
    a letter, continues with letters, digits, underscores and dots and is
    followed by nothing or by another character, the token is the name as
    it stands. *)
Theorem marked_name_found (label gap name post : str) :
  same_ic label (py "COMP_NODE") \/ same_ic label (py "COLL_COMM_NODE") ->
  forallb (fun c => negb (is_letter_ic c)) gap = true ->
  match name with
  | c :: body => is_letter_ic c && forallb is_body_ic body
  | [] => false
  end = true ->
  starts_clean_ic post ->
  match_at true pattern3 (label ++ gap ++ name ++ post)
  = Some (label ++ gap ++ name, Some name, post).
Proof.
  intros Hlabel Hgap Hname Hpost.
  destruct name as [|c body]; [done|].
  apply andb_true_iff in Hname as [Hc Hbody].
  apply match_at_found; [by rewrite <- !app_assoc|].
  rewrite pattern3_out. unfold marker_at, markers. cbn [omap list_omap].
  pose proof (node_after_clean gap c body post Hgap Hc Hbody Hpost) as Hafter.
  destruct Hlabel as [Hl|Hl].
  - rewrite (strip_ic_same label (py "COMP_NODE")) by done.
    cbn [mbind option_bind]. cbn [app] in *. by rewrite Hafter.
  - rewrite (strip_ic_other_marker label) by done.
    rewrite (strip_ic_same label (py "COLL_COMM_NODE")) by done.
    cbn [mbind option_bind]. cbn [app] in *. by rewrite Hafter.
Qed.

Lemma marked_name_found_witness :
  match_at true pattern3 (py "Comp_Node" ++ py ": 12 " ++ py "foo.bar" ++ py ", x")
  = Some (py "Comp_Node" ++ py ": 12 " ++ py "foo.bar", Some (py "foo.bar"), py ", x").
Proof.
  apply marked_name_found; [left | | |]; by vm_compute.
Defined.

(** ** The counts as a whole *)

Lemma sum_occurrences names ks :
  sum_list (map (fun k => occurrences k names) ks) =
  length (flat_map (fun k => filter (fun y => y = k) names) ks).
Proof.
  induction ks as [|k ks IH]; [done|].
  cbn [map flat_map]. rewrite length_app, <- IH. reflexivity.
Qed.

Lemma occurrences_absent t l : t ∉ l -> occurrences t l = 0%nat.
Proof.
  intros Hni. unfold occurrences.
  destruct (filter (fun x => x = t) l) as [|y ys] eqn:Hf; [done|].
  assert (y ∈ filter (fun x => x = t) l) as Hy by (rewrite Hf; left).
  apply list_elem_of_filter in Hy as [-> Hy]. done.
Qed.

(** X15.  The counts of the distinct tokens add up to the number of tokens
    that the three scans produced, so that nothing is counted twice and
    nothing is lost; and the count of a string that is not among the
    distinct tokens is zero. *)
Theorem counts_add_up (w : World) (et_file : str) (c : Console) :
  exists content unique_ops op_counts c',
    extract_strings_from_binary w et_file c = (inr content, c') /\
    extract_operations w et_file c = (inr (unique_ops, op_counts), c') /\
    sum_list (map (count_of op_counts) unique_ops)
      = length (node_names content) /\
    (forall t, t ∉ unique_ops -> count_of op_counts t = 0%nat).
Proof.
  pose proof (extract_strings_from_binary_eq w et_file c) as Hread.
  destruct (extract_strings_from_binary w et_file c) as [r c'] eqn:Hr.
  assert (exists content, r = inr content) as [content ->].
  { destruct (read w et_file); inversion Hread; eauto. }
  exists content, (sorted (elements (set_of (node_names content)))),
    (Counter (node_names content)), c'.
  split; [done|]. split.
  { unfold extract_operations, mbind, IO_bind. by rewrite Hr. }
  split.
  - erewrite map_ext; [|intros t; apply count_of_Counter].
    rewrite sum_occurrences.
    apply (length_partition (fun y => y)); [apply NoDup_unique|].
    intros x Hx. by apply elem_of_unique.
  - intros t Hni. rewrite count_of_Counter. apply occurrences_absent.
    intros Hin. apply Hni. by apply elem_of_unique.
Qed.

Lemma counts_add_up_witness :
  count_of (Counter (node_names sample_text)) (py "absent") = 0%nat.
Proof.
  destruct (counts_add_up sample_world (py "gen/b.et") fresh)
    as (content & u & k & c' & H1 & H2 & _ & Hzero).
  rewrite extract_operations_eq in H2. vm_compute in H2.
  injection H2 as <- <- _.
  refine (eq_trans _ (Hzero (py "absent") _)).
  - vm_compute. reflexivity.
  - vm_compute. intros Hin. repeat (apply elem_of_cons in Hin as [Hin|Hin]; [discriminate Hin|]).
    by apply elem_of_nil in Hin.
Defined.
